(** * The GLR parser driver of src/runtime/parser.c, embedded in Rocq

    The driver is stateful C.  Here every function of parser.c that the
    properties below talk about is a Rocq function over explicit values:
    a tree pointer that may be NULL is an [option TSTree], an array is a
    list, the parse stack is threaded through as a value, and a function
    that can fail returns [option] or one of the status enumerations of
    the source.  The LOG, LOG_ACTION and LOG_STACK macros only write to
    the debugger and are left out.

    parser.c is the only file of the runtime under src/.  The constants
    of the headers and what parser.c calls in tree.c, stack.c and
    lexer.c are taken as parameters (the classes [Builtins], [TreeOps],
    [StackOps], [LexerOps]), so the theorems hold for every
    implementation of those files.  The one-line accessors of tree.h,
    language.h and reduce_action.h are written out as the spec
    describes them.  [array_push] and [array_grow] of array.h are taken
    to succeed. *)

From Stdlib Require Import ZArith List Bool Lia.
Import ListNotations.
Local Open Scope Z_scope.

(** ** Data model *)

(** TSSymbol and TSStateId are [unsigned short]. *)
Definition TSSymbol := Z.
Definition TSStateId := Z.

(** StackVersion is an index into the stack's heads; array sizes and
    indexes ([size_t]) that only count elements of a list are [nat]. *)
Definition StackVersion := nat.

(** A [size_t] that holds a character count is a [Z] below [2^64];
    [size_add] is the wrap-around addition of C. *)
Definition SIZE_MODULUS : Z := 2 ^ 64.
Definition size_add (a b : Z) : Z := (a + b) mod SIZE_MODULUS.

(** TSLength: the driver reads only the [chars] member. *)
Record TSLength := mkLength { chars : Z }.

(** TSTree, without the reference count and without [context] (the
    parent back-edge, assigned after the parse).  [child_count] is the
    length of [children]. *)
#[warnings="-register-all"]
Inductive TSTree : Type := mkTree {
  symbol : TSSymbol;
  children : list TSTree;
  padding : TSLength;
  size : TSLength;
  error_size : Z;
  extra : bool;
  lex_state : TSStateId;
  parse_state : TSStateId;
  fragile_left : bool;
  fragile_right : bool;
  has_changes : bool;
  named_child_count : nat;
  visible_child_count : nat
}.

Definition child_count (t : TSTree) : nat := length (children t).

(** Field assignments [tree->f = v]. *)
Definition set_lex_state (t : TSTree) (s : TSStateId) : TSTree :=
  mkTree (symbol t) (children t) (padding t) (size t) (error_size t) (extra t)
         s (parse_state t) (fragile_left t) (fragile_right t) (has_changes t)
         (named_child_count t) (visible_child_count t).

Definition set_parse_state (t : TSTree) (s : TSStateId) : TSTree :=
  mkTree (symbol t) (children t) (padding t) (size t) (error_size t) (extra t)
         (lex_state t) s (fragile_left t) (fragile_right t) (has_changes t)
         (named_child_count t) (visible_child_count t).

Definition set_fragile (t : TSTree) (l r : bool) : TSTree :=
  mkTree (symbol t) (children t) (padding t) (size t) (error_size t) (extra t)
         (lex_state t) (parse_state t) l r (has_changes t)
         (named_child_count t) (visible_child_count t).

Definition set_extra (t : TSTree) (e : bool) : TSTree :=
  mkTree (symbol t) (children t) (padding t) (size t) (error_size t) e
         (lex_state t) (parse_state t) (fragile_left t) (fragile_right t)
         (has_changes t) (named_child_count t) (visible_child_count t).

Definition set_error_size (t : TSTree) (e : Z) : TSTree :=
  mkTree (symbol t) (children t) (padding t) (size t) e (extra t)
         (lex_state t) (parse_state t) (fragile_left t) (fragile_right t)
         (has_changes t) (named_child_count t) (visible_child_count t).

(** TSSymbolMetadata. *)
Record TSSymbolMetadata := mkMetadata {
  md_visible : bool;
  md_named : bool;
  md_extra : bool;
  md_structural : bool
}.

(** TSParseActionType, the five cases parser.c dispatches on. *)
Inductive TSParseActionType :=
| TSParseActionTypeError
| TSParseActionTypeShift
| TSParseActionTypeReduce
| TSParseActionTypeAccept
| TSParseActionTypeRecover.

Definition action_type_eqb (a b : TSParseActionType) : bool :=
  match a, b with
  | TSParseActionTypeError, TSParseActionTypeError
  | TSParseActionTypeShift, TSParseActionTypeShift
  | TSParseActionTypeReduce, TSParseActionTypeReduce
  | TSParseActionTypeAccept, TSParseActionTypeAccept
  | TSParseActionTypeRecover, TSParseActionTypeRecover => true
  | _, _ => false
  end.

(** TSParseAction: the type tag, the three flag bits, and the members of
    the [data] union ([to_state] for a shift or recover, [symbol] and
    [child_count] for a reduce). *)
Record TSParseAction := mkAction {
  action_type : TSParseActionType;
  action_extra : bool;
  action_fragile : bool;
  action_can_hide_split : bool;
  data_to_state : TSStateId;
  data_symbol : TSSymbol;
  data_child_count : nat
}.

(** [static const TSParseAction ERROR_ACTION = {.type = TSParseActionTypeError}] *)
Definition ERROR_ACTION : TSParseAction :=
  mkAction TSParseActionTypeError false false false 0 0 0%nat.

(** TSLanguage: the members the driver reads.  [actions state symbol] is
    the action list that [ts_language_actions] returns. *)
Record TSLanguage := mkLanguage {
  symbol_count : nat;
  lex_states : TSStateId -> TSStateId;
  actions : TSStateId -> TSSymbol -> list TSParseAction;
  symbol_metadata : TSSymbol -> TSSymbolMetadata
}.

(** TSLexerResult, what [ts_lexer_finish] fills in. *)
Record TSLexerResult := mkLexerResult {
  lr_symbol : TSSymbol;
  lr_padding : TSLength;
  lr_size : TSLength;
  lr_is_fragile : bool;
  lr_first_unexpected_character : Z
}.

(** ReduceAction of reduce_action.h. *)
Record ReduceAction := mkReduceAction {
  ra_symbol : TSSymbol;
  ra_count : nat
}.

(** ** What parser.c takes from the rest of the runtime *)

(** The constants of tree_sitter/parser.h and tree.h. *)
Class Builtins := {
  ts_builtin_sym_error : TSSymbol;
  ts_builtin_sym_end : TSSymbol;
  ts_parse_state_error : TSStateId;
  TS_TREE_STATE_INDEPENDENT : TSStateId;
  TS_TREE_STATE_ERROR : TSStateId
}.

(** The functions of tree.c.  A constructor returns [None] when the
    allocation fails (NULL in C).  [ts_tree_compare] returns an [int]. *)
Class TreeOps := {
  ts_tree_compare : TSTree -> TSTree -> Z;
  ts_tree_make_leaf :
    TSSymbol -> TSLength -> TSLength -> TSSymbolMetadata -> option TSTree;
  ts_tree_make_error : TSLength -> TSLength -> Z -> option TSTree;
  ts_tree_make_node :
    TSSymbol -> list TSTree -> TSSymbolMetadata -> option TSTree;
  ts_tree_make_error_node : list TSTree -> option TSTree;
  ts_tree_set_children : TSTree -> list TSTree -> TSTree
}.

(** Modelled from the spec: [ts_tree_is_fragile] of tree.h, which is not
    under src/.  The spec's reuse rule reads "fragile_left || fragile_right". *)
Definition ts_tree_is_fragile (t : TSTree) : bool :=
  fragile_left t || fragile_right t.

(** Modelled from the spec: [ts_tree_total_chars] of tree.h, the
    character length of the padding and of the content. *)
Definition ts_tree_total_chars (t : TSTree) : Z :=
  chars (padding t) + chars (size t).

(** Modelled from the spec: the accessors of language.h.  [last_action]
    is "the last element of the action list, used as the default
    action"; an empty entry of the table reads as the error action. *)
Definition ts_language_actions (l : TSLanguage) (state : TSStateId)
    (sym : TSSymbol) : list TSParseAction :=
  actions l state sym.

Definition ts_language_last_action (l : TSLanguage) (state : TSStateId)
    (sym : TSSymbol) : TSParseAction :=
  last (ts_language_actions l state sym) ERROR_ACTION.

Definition ts_language_has_action (l : TSLanguage) (state : TSStateId)
    (sym : TSSymbol) : bool :=
  negb (action_type_eqb (action_type (ts_language_last_action l state sym))
                        TSParseActionTypeError).

Definition ts_language_lex_state (l : TSLanguage) (state : TSStateId)
    : TSStateId :=
  lex_states l state.

Definition ts_language_symbol_metadata (l : TSLanguage) (sym : TSSymbol)
    : TSSymbolMetadata :=
  symbol_metadata l sym.

(** ** Tree selection (parser.c, ts_parser__select_tree) *)

Section Selection.
Context `{TreeOps}.

(** [true] means: take [right], drop [left]. *)
Definition ts_parser__select_tree (left right : option TSTree) : bool :=
  match left with
  | None => true
  | Some l =>
    match right with
    | None => false
    | Some r =>
      if error_size r <? error_size l then true
      else if error_size l <? error_size r then false
      else
        let comparison := ts_tree_compare l r in
        if comparison =? -1 then false
        else if comparison =? 1 then true
        else false
    end
  end.

End Selection.

(** ** The parse stack, as parser.c sees it (stack.h) *)

Inductive StackPopStatus :=
| StackPopFailed
| StackPopStoppedAtError
| StackPopSucceeded.

(** StackSlice: the popped trees, left to right, and the version the pop
    left them under. *)
Record StackSlice := mkSlice {
  slice_trees : list TSTree;
  slice_version : StackVersion
}.

Record StackPopResult := mkPop {
  pop_status : StackPopStatus;
  pop_slices : list StackSlice
}.

(** StackIterateAction is a bit mask of StackIteratePop and
    StackIterateStop; StackIterateNone is both bits clear. *)
Record StackIterateAction := mkIterate {
  iterate_pop : bool;
  iterate_stop : bool
}.

Definition StackIterateCallback (P : Type) : Type :=
  P -> TSStateId -> list TSTree -> nat -> bool -> bool ->
  StackIterateAction * P.

(** The operations of stack.c on a stack value.  [ts_stack_push] returns
    [None] when the allocation fails; a pushed tree may be NULL.  The
    callback of [ts_stack_iterate] carries its payload through. *)
Class StackOps (Stack : Type) := {
  ts_stack_version_count : Stack -> nat;
  ts_stack_top_state : Stack -> StackVersion -> TSStateId;
  ts_stack_top_position : Stack -> StackVersion -> TSLength;
  ts_stack_push :
    Stack -> StackVersion -> option TSTree -> bool -> TSStateId -> option Stack;
  ts_stack_pop_count : Stack -> StackVersion -> nat -> StackPopResult * Stack;
  ts_stack_pop_pending : Stack -> StackVersion -> StackPopResult * Stack;
  ts_stack_pop_all : Stack -> StackVersion -> StackPopResult * Stack;
  ts_stack_iterate :
    forall P : Type, Stack -> StackVersion -> StackIterateCallback P -> P ->
                     StackPopResult * P * Stack;
  ts_stack_remove_version : Stack -> StackVersion -> Stack;
  ts_stack_renumber_version : Stack -> StackVersion -> StackVersion -> Stack;
  ts_stack_merge : Stack -> StackVersion -> StackVersion -> bool * Stack;
  ts_stack_merge_from : Stack -> nat -> Stack;
  ts_stack_condense : Stack -> bool * Stack;
  ts_stack_clear : Stack -> Stack
}.

(** The lexer of lexer.c: [ts_lexer_start], the language's [lex_fn] and
    [ts_lexer_finish], run in a lex state and in or out of error mode. *)
Class LexerOps (Lexer : Type) := {
  TSInput : Type;
  ts_lexer_set_input : Lexer -> TSInput -> Lexer;
  ts_lexer_reset : Lexer -> TSLength -> Lexer;
  ts_lexer_run : Lexer -> TSStateId -> bool -> TSLexerResult * Lexer
}.

(** TSParser: the members the driver reads and writes. *)
Record TSParser (Stack Lexer : Type) := mkParser {
  lexer : Lexer;
  stack : Stack;
  language : TSLanguage;
  reduce_actions : list ReduceAction;
  finished_tree : option TSTree;
  is_split : bool;
  scratch_tree : TSTree
}.
Arguments mkParser {Stack Lexer}.
Arguments lexer {Stack Lexer}.
Arguments stack {Stack Lexer}.
Arguments language {Stack Lexer}.
Arguments reduce_actions {Stack Lexer}.
Arguments finished_tree {Stack Lexer}.
Arguments is_split {Stack Lexer}.
Arguments scratch_tree {Stack Lexer}.

Section ParserState.
Context {Stack Lexer : Type}.

Definition set_stack (self : TSParser Stack Lexer) (s : Stack) :=
  mkParser (lexer self) s (language self) (reduce_actions self)
           (finished_tree self) (is_split self) (scratch_tree self).

Definition set_lexer (self : TSParser Stack Lexer) (lx : Lexer) :=
  mkParser lx (stack self) (language self) (reduce_actions self)
           (finished_tree self) (is_split self) (scratch_tree self).

Definition set_reduce_actions (self : TSParser Stack Lexer)
    (r : list ReduceAction) :=
  mkParser (lexer self) (stack self) (language self) r
           (finished_tree self) (is_split self) (scratch_tree self).

Definition set_finished_tree (self : TSParser Stack Lexer)
    (t : option TSTree) :=
  mkParser (lexer self) (stack self) (language self) (reduce_actions self)
           t (is_split self) (scratch_tree self).

Definition set_is_split (self : TSParser Stack Lexer) (b : bool) :=
  mkParser (lexer self) (stack self) (language self) (reduce_actions self)
           (finished_tree self) b (scratch_tree self).

Definition set_scratch_tree (self : TSParser Stack Lexer) (t : TSTree) :=
  mkParser (lexer self) (stack self) (language self) (reduce_actions self)
           (finished_tree self) (is_split self) t.

End ParserState.

(** ** Reuse and lexing (parser.c, ts_parser__can_reuse, ts_parser__lex) *)

Section Lookahead.
Context `{Builtins} `{TreeOps}.
Context {Stack Lexer : Type} `{StackOps Stack} `{LexerOps Lexer}.

(** The third test of [ts_parser__can_reuse], on the lex state alone. *)
Definition lex_state_allows (l : TSLanguage) (top_state : TSStateId)
    (tree : TSTree) : bool :=
  negb (negb (lex_state tree =? TS_TREE_STATE_INDEPENDENT) &&
        negb (lex_state tree =? ts_language_lex_state l top_state)).

Definition ts_parser__can_reuse (self : TSParser Stack Lexer)
    (version : StackVersion) (tree : TSTree) : bool :=
  if symbol tree =? ts_builtin_sym_error then false
  else if ts_tree_is_fragile tree &&
          negb (parse_state tree =? ts_stack_top_state (stack self) version)
  then false
  else
    let top_state := ts_stack_top_state (stack self) version in
    if negb (lex_state_allows (language self) top_state tree) then false
    else
      let action :=
        ts_language_last_action (language self) top_state (symbol tree) in
      if action_type_eqb (action_type action) TSParseActionTypeError ||
         action_can_hide_split action
      then false
      else if extra tree && negb (action_extra action) then false
      else true.

(** [ts_parser__lex]: the tree, or NULL when the allocation failed, and
    the lexer after the token. *)
Definition ts_parser__lex (self : TSParser Stack Lexer) (state : TSStateId)
    (error_mode : bool) : option TSTree * TSParser Stack Lexer :=
  let '(lex_result, lexer') := ts_lexer_run (lexer self) state error_mode in
  let self' := set_lexer self lexer' in
  let result :=
    if lr_symbol lex_result =? ts_builtin_sym_error then
      ts_tree_make_error (lr_size lex_result) (lr_padding lex_result)
                         (lr_first_unexpected_character lex_result)
    else
      ts_tree_make_leaf (lr_symbol lex_result) (lr_padding lex_result)
                        (lr_size lex_result)
                        (ts_language_symbol_metadata (language self)
                                                     (lr_symbol lex_result)) in
  match result with
  | None => (None, self')
  | Some result =>
    if lr_is_fragile lex_result
    then (Some (set_lex_state result state), self')
    else (Some result, self')
  end.

End Lookahead.

(** ** Results of the driver's steps *)

(** A step of the driver returns a value, or an [assert] in it fails and
    the process aborts, or it reads an array outside its bounds and C
    leaves the behaviour undefined, or a loop of it is still running when
    the fuel given to the model is used up. *)
Inductive Run (A : Type) :=
| Ret (a : A)
| AssertFailed
| Undefined
| OutOfFuel.
Arguments Ret {A}.
Arguments AssertFailed {A}.
Arguments Undefined {A}.
Arguments OutOfFuel {A}.

Definition bind {A B : Type} (m : Run A) (k : A -> Run B) : Run B :=
  match m with
  | Ret a => k a
  | AssertFailed => AssertFailed
  | Undefined => Undefined
  | OutOfFuel => OutOfFuel
  end.

Notation "x <- m ;; k" := (bind m (fun x => k))
  (at level 61, m at next level, right associativity).
Notation "' p <- m ;; k" := (bind m (fun x => let p := x in k))
  (at level 61, p pattern, m at next level, right associativity).

Inductive ReductionStatus :=
| ReduceFailed
| ReduceSucceeded
| ReduceStoppedAtError.

(** Reduction.  [red_slice] is [pop.slices.contents[0]]: [None] where the
    source leaves it zeroed (ReduceFailed) or reads an empty array. *)
Record Reduction := mkReduction {
  red_status : ReductionStatus;
  red_slice : option StackSlice
}.

Inductive RepairResult :=
| RepairFailed
| RepairSucceeded
| RepairNoneFound.

Inductive ParseActionResult :=
| ParseActionFailed
| ParseActionUpdated
| ParseActionRemoved.

(** ** Reduction (parser.c, ts_parser__switch_children, ts_parser__reduce) *)

(** [while (child_count > 0 && trees[child_count - 1]->extra) child_count--] *)
Fixpoint drop_trailing_extras (trees : list TSTree) (child_count : nat) : nat :=
  match child_count with
  | O => O
  | S n =>
    match nth_error trees n with
    | Some t => if extra t then drop_trailing_extras trees n else S n
    | None => S n
    end
  end.

Definition set_symbol_no_children (t : TSTree) (s : TSSymbol) : TSTree :=
  mkTree s [] (padding t) (size t) (error_size t) (extra t)
         (lex_state t) (parse_state t) (fragile_left t) (fragile_right t)
         (has_changes t) (named_child_count t) (visible_child_count t).

(** The seven assignments of [ts_parser__switch_children]. *)
Definition take_children (tree scratch : TSTree) : TSTree :=
  mkTree (symbol tree) (children scratch) (padding scratch) (size scratch)
         (error_size scratch) (extra tree) (lex_state tree) (parse_state tree)
         (fragile_left tree) (fragile_right tree) (has_changes tree)
         (named_child_count scratch) (visible_child_count scratch).

(** A node as [ts_parser__reduce] pushes it, with what the stack was
    when its flags were set.  Kept beside the result so that properties
    of the nodes can be stated; the source returns only the Reduction. *)
Record ReducedNode (Stack : Type) := mkReducedNode {
  rn_stack : Stack;
  rn_version : StackVersion;
  rn_parent : TSTree
}.
Arguments mkReducedNode {Stack}.
Arguments rn_stack {Stack}.
Arguments rn_version {Stack}.
Arguments rn_parent {Stack}.

Section Reduce.
Context `{Builtins} `{TreeOps}.
Context {Stack Lexer : Type} `{StackOps Stack}.
Local Abbreviation Parser := (TSParser Stack Lexer).

Definition ts_parser__push (self : Parser) (version : StackVersion)
    (tree : TSTree) (state : TSStateId) : option Parser :=
  match ts_stack_push (stack self) version (Some tree) false state with
  | Some s => Some (set_stack self s)
  | None => None
  end.

Definition ts_parser__switch_children (self : Parser) (tree : TSTree)
    (children : list TSTree) : bool * TSTree * Parser :=
  let scratch :=
    ts_tree_set_children
      (set_symbol_no_children (scratch_tree self) (symbol tree)) children in
  let self' := set_scratch_tree self scratch in
  if ts_parser__select_tree (Some tree) (Some scratch)
  then (true, take_children tree scratch, self')
  else (false, tree, self').

(** Lines 417-424: the flags and the parse state of the new node. *)
Definition reduce_mark_parent (fragile split : bool) (version_count : nat)
    (state : TSStateId) (parent : TSTree) : TSTree :=
  if fragile || split || (1 <? version_count)%nat
  then set_parse_state (set_fragile parent true true) TS_TREE_STATE_ERROR
  else set_parse_state parent state.

(** Lines 438-441: the trees of the slice after the node's children. *)
Fixpoint push_trees (self : Parser) (version : StackVersion)
    (trees : list TSTree) (state : TSStateId) : option Parser :=
  match trees with
  | [] => Some self
  | tree :: rest =>
    match ts_parser__push self version tree state with
    | Some self' => push_trees self' version rest state
    | None => None
    end
  end.

(** Lines 417-441 for one parent: [Ret None] is the [goto error] of a
    failed push. *)
Definition reduce_push_parent (self : Parser) (symbol : TSSymbol)
    (extra fragile : bool) (parent : TSTree) (slice : StackSlice)
    : Run (option (Parser * ReducedNode Stack)) :=
  let state := ts_stack_top_state (stack self) (slice_version slice) in
  let parent :=
    reduce_mark_parent fragile (is_split self)
                       (ts_stack_version_count (stack self)) state parent in
  '(parent, new_state) <-
    (if extra then Ret (set_extra parent true, state)
     else
       let action := ts_language_last_action (language self) state symbol in
       if action_type_eqb (action_type action) TSParseActionTypeShift ||
          action_type_eqb (action_type action) TSParseActionTypeRecover
       then Ret (parent, data_to_state action)
       else AssertFailed) ;;
  let node := mkReducedNode (stack self) (slice_version slice) parent in
  match ts_parser__push self (slice_version slice) parent new_state with
  | None => Ret None
  | Some self' =>
    match push_trees self' (slice_version slice)
                     (skipn (child_count parent) (slice_trees slice))
                     new_state with
    | None => Ret None
    | Some self'' => Ret (Some (self'', node))
    end
  end.

(** The loop over the popped slices (lines 384-442).  [parent] and
    [slice] belong to the iteration in progress; the inner [while] takes
    the next slice when it has the same version, otherwise the parent is
    pushed and the node of the next slice is made.  The result is the
    parser and the nodes pushed, with [false] for [goto error]. *)
Fixpoint reduce_slices (self : Parser) (symbol : TSSymbol)
    (metadata : TSSymbolMetadata) (extra fragile : bool)
    (parent : TSTree) (slice : StackSlice) (rest : list StackSlice)
    (built : list (ReducedNode Stack))
    : Run (bool * Parser * list (ReducedNode Stack)) :=
  match rest with
  | [] =>
    r <- reduce_push_parent self symbol extra fragile parent slice ;;
    match r with
    | None => Ret (false, self, built)
    | Some (self', node) => Ret (true, self', built ++ [node])
    end
  | next_slice :: rest' =>
    let next_trees := slice_trees next_slice in
    if (slice_version next_slice =? slice_version slice)%nat then
      let child_count := drop_trailing_extras next_trees (length next_trees) in
      match ts_parser__switch_children self parent
                                       (firstn child_count next_trees) with
      | (true, parent', self') =>
        reduce_slices self' symbol metadata extra fragile parent' next_slice
                      rest' built
      | (false, parent', self') =>
        reduce_slices self' symbol metadata extra fragile parent' slice
                      rest' built
      end
    else
      r <- reduce_push_parent self symbol extra fragile parent slice ;;
      match r with
      | None => Ret (false, self, built)
      | Some (self', node) =>
        let child_count := drop_trailing_extras next_trees (length next_trees) in
        match ts_tree_make_node symbol (firstn child_count next_trees)
                                metadata with
        | None => Ret (false, self', built ++ [node])
        | Some parent' =>
          reduce_slices self' symbol metadata extra fragile parent' next_slice
                        rest' (built ++ [node])
        end
      end
  end.

(** [ts_parser__reduce], with the nodes it pushed. *)
Definition ts_parser__reduce (self : Parser) (version : StackVersion)
    (symbol : TSSymbol) (count : nat) (extra fragile : bool)
    : Run (Reduction * Parser * list (ReducedNode Stack)) :=
  let initial_version_count := ts_stack_version_count (stack self) in
  let '(pop, s) := ts_stack_pop_count (stack self) version count in
  let self := set_stack self s in
  let failed := mkReduction ReduceFailed None in
  match pop_status pop with
  | StackPopFailed => Ret (failed, self, [])
  | StackPopStoppedAtError =>
    Ret (mkReduction ReduceStoppedAtError (nth_error (pop_slices pop) 0),
         self, [])
  | StackPopSucceeded =>
    let metadata := ts_language_symbol_metadata (language self) symbol in
    '(ok, self, built) <-
      match pop_slices pop with
      | [] => Ret (true, self, [])
      | slice :: rest =>
        let trees := slice_trees slice in
        let child_count := drop_trailing_extras trees (length trees) in
        match ts_tree_make_node symbol (firstn child_count trees) metadata with
        | None => Ret (false, self, [])
        | Some parent =>
          reduce_slices self symbol metadata extra fragile parent slice rest []
        end
      end ;;
    if ok : bool then
      let self := set_stack self (ts_stack_merge_from (stack self)
                                                      initial_version_count) in
      Ret (mkReduction ReduceSucceeded (nth_error (pop_slices pop) 0),
           self, built)
    else Ret (failed, self, built)
  end.

End Reduce.

(** ** Error repair (parser.c, ts_parser__is_valid_repair,
    ts_parser__error_repair_callback, ts_parser__repair_error) *)

(** Modelled from the spec: [ts_tree_array_essential_count] of tree.c,
    "the number of essential (non-extra) trees in the slice". *)
Definition ts_tree_array_essential_count (trees : list TSTree) : nat :=
  length (filter (fun t => negb (extra t)) trees).

(** ErrorRepairSession.  [session->parser] is read for its language and
    written in its [reduce_actions] only; the two stand here as
    [session_language] and [session_repairs]. *)
Record ErrorRepairSession := mkSession {
  session_language : TSLanguage;
  session_repairs : list ReduceAction;
  lookahead_symbol : TSSymbol;
  trees_above_error : list TSTree;
  found_repair : bool;
  best_repair : ReduceAction;
  best_repair_next_state : TSStateId;
  best_repair_skip_count : nat
}.

Definition set_session_repairs (s : ErrorRepairSession)
    (r : list ReduceAction) : ErrorRepairSession :=
  mkSession (session_language s) r (lookahead_symbol s) (trees_above_error s)
            (found_repair s) (best_repair s) (best_repair_next_state s)
            (best_repair_skip_count s).

(** Lines 533-536. *)
Definition record_repair (s : ErrorRepairSession) (repair : ReduceAction)
    (skip_count : nat) (state_after_repair : TSStateId) : ErrorRepairSession :=
  mkSession (session_language s) (session_repairs s) (lookahead_symbol s)
            (trees_above_error s) true repair state_after_repair skip_count.

Definition is_shift (a : TSParseAction) : bool :=
  action_type_eqb (action_type a) TSParseActionTypeShift.

(** The inner loop of [ts_parser__is_valid_repair] (lines 473-483):
    [None] is its [return false]. *)
Fixpoint shift_trees_above (language : TSLanguage) (state : TSStateId)
    (trees_above : list TSTree) : option TSStateId :=
  match trees_above with
  | [] => Some state
  | tree :: rest =>
    let action := ts_language_last_action language state (symbol tree) in
    if negb (is_shift action) then None
    else if action_extra action || extra tree
    then shift_trees_above language state rest
    else shift_trees_above language (data_to_state action) rest
  end.

(** Lines 485-491. *)
Definition has_reduce_of (language : TSLanguage) (state : TSStateId)
    (lookahead_symbol goal_symbol : TSSymbol) : bool :=
  existsb (fun a => action_type_eqb (action_type a) TSParseActionTypeReduce &&
                    (data_symbol a =? goal_symbol))
          (ts_language_actions language state lookahead_symbol).

(** The outer loop (lines 460-493) over [trees_below] from its last
    element to its first; [trees] is what is left to visit, in that
    order. *)
Fixpoint valid_repair_loop (language : TSLanguage)
    (trees_above : list TSTree) (goal_symbol : TSSymbol)
    (goal_count_below : nat) (lookahead_symbol : TSSymbol)
    (state : TSStateId) (count_below : nat) (trees : list TSTree) : bool :=
  match trees with
  | [] => false
  | tree :: rest =>
    let action := ts_language_last_action language state (symbol tree) in
    if negb (is_shift action) then false
    else if action_extra action || extra tree
    then valid_repair_loop language trees_above goal_symbol goal_count_below
                           lookahead_symbol state count_below rest
    else
      let state := data_to_state action in
      let count_below := S count_below in
      if (count_below =? goal_count_below)%nat then
        match shift_trees_above language state trees_above with
        | None => false
        | Some state =>
          if has_reduce_of language state lookahead_symbol goal_symbol
          then true
          else valid_repair_loop language trees_above goal_symbol
                                 goal_count_below lookahead_symbol state
                                 count_below rest
        end
      else valid_repair_loop language trees_above goal_symbol goal_count_below
                             lookahead_symbol state count_below rest
  end.

Definition ts_parser__is_valid_repair (language : TSLanguage)
    (trees_below trees_above : list TSTree) (start_state : TSStateId)
    (goal_symbol : TSSymbol) (goal_count_below : nat)
    (lookahead_symbol : TSSymbol) : bool :=
  valid_repair_loop language trees_above goal_symbol goal_count_below
                    lookahead_symbol start_state 0%nat (rev trees_below).

(** The body of the callback's loop for one candidate (lines 510-538):
    whether the candidate is erased from the array, the session, and
    whether StackIteratePop is set. *)
Definition try_repair (state : TSStateId) (trees : list TSTree)
    (tree_count : nat) (session : ErrorRepairSession) (repair : ReduceAction)
    : bool * ErrorRepairSession * bool :=
  let language := session_language session in
  if (tree_count <? ra_count repair)%nat then (false, session, false)
  else
    let skip_count := (tree_count - ra_count repair)%nat in
    if found_repair session &&
       (best_repair_skip_count session <=? skip_count)%nat
    then (true, session, false)
    else
      let repair_symbol_action :=
        ts_language_last_action language state (ra_symbol repair) in
      if negb (is_shift repair_symbol_action) then (false, session, false)
      else
        let state_after_repair := data_to_state repair_symbol_action in
        if negb (ts_language_has_action language state_after_repair
                                        (lookahead_symbol session))
        then (false, session, false)
        else if ts_parser__is_valid_repair language trees
                  (trees_above_error session) state (ra_symbol repair)
                  (ra_count repair) (lookahead_symbol session)
        then (true,
              record_repair session repair skip_count state_after_repair,
              true)
        else (false, session, false).

(** The loop of the callback over the candidate repairs (lines 509-539).
    The result is the candidates left in the array, the session, and
    whether StackIteratePop was set. *)
Fixpoint repair_candidates (state : TSStateId) (trees : list TSTree)
    (tree_count : nat) (repairs : list ReduceAction)
    (session : ErrorRepairSession) (pop : bool)
    : list ReduceAction * ErrorRepairSession * bool :=
  match repairs with
  | [] => ([], session, pop)
  | repair :: rest =>
    let '(erased, session, popped) :=
      try_repair state trees tree_count session repair in
    let '(kept, session, pop) :=
      repair_candidates state trees tree_count rest session (pop || popped) in
    (if erased : bool then kept else repair :: kept, session, pop)
  end.

Definition ts_parser__error_repair_callback : StackIterateCallback ErrorRepairSession :=
  fun session state trees tree_count is_done is_pending =>
    let '(repairs, session, pop) :=
      repair_candidates state trees tree_count (session_repairs session)
                        session false in
    let stop := match repairs with [] => true | _ => false end in
    (mkIterate pop stop, set_session_repairs session repairs).

Section Repair.
Context `{Builtins} `{TreeOps}.
Context {Stack Lexer : Type} `{StackOps Stack}.
Local Abbreviation Parser := (TSParser Stack Lexer).

(** Lines 559-567.  [array_push] of array.h is taken to succeed. *)
Fixpoint repairs_of_actions (actions : list TSParseAction)
    (count_above_error : nat) : list ReduceAction :=
  match actions with
  | [] => []
  | a :: rest =>
    if action_type_eqb (action_type a) TSParseActionTypeReduce &&
       (count_above_error <? data_child_count a)%nat
    then mkReduceAction (data_symbol a)
                        (data_child_count a - count_above_error)
         :: repairs_of_actions rest count_above_error
    else repairs_of_actions rest count_above_error
  end.

(** Lines 589-594: the slices under the last one, from the last to the
    first, each compared with the version of the slice after it. *)
Fixpoint remove_other_slices (s : Stack) (others : list StackSlice)
    (next_version : StackVersion) : Stack :=
  match others with
  | [] => s
  | other_slice :: rest =>
    let s' :=
      if (slice_version other_slice =? next_version)%nat then s
      else ts_stack_remove_version s (slice_version other_slice) in
    remove_other_slices s' rest (slice_version other_slice)
  end.

(** [ts_parser__repair_error].  The result is [Undefined] where the
    source pops the last slice of an empty array (line 585) or sets
    [children.size] beyond the popped trees (line 603). *)
Definition ts_parser__repair_error (self : Parser) (slice : StackSlice)
    (lookahead : TSTree) (actions : list TSParseAction)
    : Run (RepairResult * Parser) :=
  let count_above_error := ts_tree_array_essential_count (slice_trees slice) in
  let repairs := repairs_of_actions actions count_above_error in
  let session :=
    mkSession (language self) repairs (symbol lookahead) (slice_trees slice)
              false (mkReduceAction 0 0) 0 0 in
  let '(pop, session, s) :=
    ts_stack_iterate ErrorRepairSession (stack self) (slice_version slice)
                     ts_parser__error_repair_callback session in
  let self := set_reduce_actions (set_stack self s) (session_repairs session) in
  match pop_status pop with
  | StackPopFailed => Ret (RepairFailed, self)
  | _ =>
    if negb (found_repair session) then
      Ret (RepairNoneFound,
           set_stack self (ts_stack_remove_version (stack self)
                                                   (slice_version slice)))
    else
      let repair := best_repair session in
      let next_state := best_repair_next_state session in
      let symbol := ra_symbol repair in
      match rev (pop_slices pop) with
      | [] => Undefined
      | new_slice :: others =>
        let children := slice_trees new_slice in
        let s := ts_stack_renumber_version (stack self)
                   (slice_version new_slice) (slice_version slice) in
        let s := remove_other_slices s others (slice_version new_slice) in
        let self := set_stack self s in
        if (length children <? ra_count repair)%nat then Undefined
        else
          let skipped_children := skipn (ra_count repair) children in
          match ts_tree_make_error_node skipped_children with
          | None => Ret (RepairFailed, self)
          | Some error =>
            let children :=
              firstn (ra_count repair) children ++ [error] ++
              slice_trees slice in
            match ts_tree_make_node symbol children
                    (ts_language_symbol_metadata (language self) symbol) with
            | None => Ret (RepairFailed, self)
            | Some parent =>
              match ts_parser__push self (slice_version slice) parent
                                    next_state with
              | None => Ret (RepairFailed, self)
              | Some self => Ret (RepairSucceeded, self)
              end
            end
          end
      end
  end.

End Repair.

(** ** Accepting (parser.c, ts_parser__accept) *)

Section Accept.
Context `{Builtins} `{TreeOps}.
Context {Stack Lexer : Type} `{StackOps Stack}.
Local Abbreviation Parser := (TSParser Stack Lexer).

(** Line 650: the index of the last tree that is not extra, looking at
    [trees[j - 1]], ..., [trees[0]]. *)
Fixpoint find_root (trees : list TSTree) (j : nat) : option nat :=
  match j with
  | O => None
  | S j' =>
    match nth_error trees j' with
    | Some t => if negb (extra t) then Some j' else find_root trees j'
    | None => find_root trees j'
    end
  end.

(** [array_splice(&trees, j, 1, root->child_count, root->children)] *)
Definition splice_root (trees : list TSTree) (j : nat) (root : TSTree)
    : list TSTree :=
  firstn j trees ++ children root ++ skipn (S j) trees.

(** Lines 659-661, for [k] from [k0 - 1] down to 0. *)
Fixpoint accept_error_size (root : TSTree) (j k0 : nat) : Run TSTree :=
  match k0 with
  | O => Ret root
  | S k =>
    match nth_error (children root) k with
    | None => Undefined
    | Some child =>
      if negb (extra child) then
        match nth_error (children root) j with
        | None => Undefined
        | Some at_j =>
          accept_error_size
            (set_error_size root
               (size_add (error_size root) (chars (size at_j)))) j k
        end
      else accept_error_size root j k
    end
  end.

(** Lines 650-672 for one slice: the root as it is offered to
    [ts_parser__select_tree], or [None] when every tree is extra. *)
Definition accept_root (trees : list TSTree) : Run (option TSTree) :=
  match find_root trees (length trees) with
  | None => Ret None
  | Some j =>
    match nth_error trees j with
    | None => Undefined
    | Some root =>
      let trees := splice_root trees j root in
      let root := ts_tree_set_children root trees in
      root <- accept_error_size root j j ;;
      Ret (Some root)
    end
  end.

Fixpoint accept_slices (self : Parser) (slices : list StackSlice)
    : Run Parser :=
  match slices with
  | [] => Ret self
  | slice :: rest =>
    r <- accept_root (slice_trees slice) ;;
    match r with
    | None => accept_slices self rest
    | Some root =>
      if ts_parser__select_tree (finished_tree self) (Some root)
      then accept_slices (set_finished_tree self (Some root)) rest
      else accept_slices self rest
    end
  end.

Definition ts_parser__accept (self : Parser) (version : StackVersion)
    : Run (bool * Parser) :=
  let '(pop, s) := ts_stack_pop_all (stack self) version in
  let self := set_stack self s in
  match pop_status pop, pop_slices pop with
  | StackPopFailed, _ => Ret (false, self)
  | _, [] => Ret (false, self)
  | _, first :: _ =>
    self <- accept_slices self (pop_slices pop) ;;
    let s := ts_stack_remove_version (stack self) (slice_version first) in
    let s := ts_stack_remove_version s version in
    Ret (true, set_stack self s)
  end.

End Accept.

(** ** The error handler (parser.c, ts_parser__handle_error) *)

(** Modelled from the spec: [ts_reduce_action_set_add] of reduce_action.h
    adds to "a reduce_actions set (deduplicated)". *)
Definition reduce_action_eqb (a b : ReduceAction) : bool :=
  (ra_symbol a =? ra_symbol b) && (ra_count a =? ra_count b)%nat.

Definition ts_reduce_action_set_add (set : list ReduceAction)
    (new_action : ReduceAction) : list ReduceAction :=
  if existsb (reduce_action_eqb new_action) set then set
  else set ++ [new_action].

(** Lines 695-714, over the actions of one symbol. *)
Fixpoint error_actions_of_symbol (actions : list TSParseAction)
    (has_shift_action : bool) (reduce_actions : list ReduceAction)
    : bool * list ReduceAction :=
  match actions with
  | [] => (has_shift_action, reduce_actions)
  | action :: rest =>
    if action_extra action
    then error_actions_of_symbol rest has_shift_action reduce_actions
    else
      match action_type action with
      | TSParseActionTypeShift | TSParseActionTypeRecover =>
        error_actions_of_symbol rest true reduce_actions
      | TSParseActionTypeReduce =>
        if (0 <? data_child_count action)%nat
        then error_actions_of_symbol rest has_shift_action
               (ts_reduce_action_set_add reduce_actions
                  (mkReduceAction (data_symbol action)
                                  (data_child_count action)))
        else error_actions_of_symbol rest has_shift_action reduce_actions
      | _ => error_actions_of_symbol rest has_shift_action reduce_actions
      end
  end.

(** Lines 690-715, over the symbols [0 .. symbol_count - 1]. *)
Fixpoint error_actions_of_state (language : TSLanguage) (state : TSStateId)
    (symbols : list nat) (has_shift_action : bool)
    (reduce_actions : list ReduceAction) : bool * list ReduceAction :=
  match symbols with
  | [] => (has_shift_action, reduce_actions)
  | sym :: rest =>
    let '(has_shift_action, reduce_actions) :=
      error_actions_of_symbol
        (ts_language_actions language state (Z.of_nat sym))
        has_shift_action reduce_actions in
    error_actions_of_state language state rest has_shift_action reduce_actions
  end.

Section HandleError.
Context `{Builtins} `{TreeOps}.
Context {Stack Lexer : Type} `{StackOps Stack}.
Local Abbreviation Parser := (TSParser Stack Lexer).

(** Lines 717-733: [None] is the [goto error] of a failed reduction. *)
Fixpoint handle_error_reduce (self : Parser) (version : StackVersion)
    (reduce_actions : list ReduceAction) (did_reduce : bool)
    : Run (option (Parser * bool)) :=
  match reduce_actions with
  | [] => Ret (Some (self, did_reduce))
  | action :: rest =>
    '(reduction, self, _) <-
      ts_parser__reduce self version (ra_symbol action) (ra_count action)
                        false true ;;
    match red_status reduction with
    | ReduceFailed => Ret None
    | ReduceStoppedAtError =>
      match red_slice reduction with
      | None => Undefined
      | Some slice =>
        handle_error_reduce
          (set_stack self (ts_stack_remove_version (stack self)
                                                   (slice_version slice)))
          version rest did_reduce
      end
    | ReduceSucceeded => handle_error_reduce self version rest true
    end
  end.

(** Lines 739-743: [Ret None] is the [goto error] of a failed push. *)
Fixpoint merge_error_versions (fuel : nat) (s : Stack)
    (version : StackVersion) (previous_version_count : nat)
    : Run (option Stack) :=
  if (previous_version_count <? ts_stack_version_count s)%nat then
    match fuel with
    | O => OutOfFuel
    | S fuel' =>
      match ts_stack_push s previous_version_count None false
                          ts_parse_state_error with
      | None => Ret None
      | Some s =>
        match ts_stack_merge s version previous_version_count with
        | (true, s) =>
          merge_error_versions fuel' s version previous_version_count
        | (false, _) => AssertFailed
        end
      end
    end
  else Ret (Some s).

(** Lines 735-738: the renumbering and the marker on [version]. *)
Definition mark_error_version (s : Stack) (version : StackVersion)
    (previous_version_count : nat) (did_reduce has_shift_action : bool)
    : option Stack :=
  let s :=
    if did_reduce && negb has_shift_action
    then ts_stack_renumber_version s previous_version_count version
    else s in
  ts_stack_push s version None false ts_parse_state_error.

(** [ts_parser__handle_error]: the parser after [return true], or [None]
    for [return false].  [fuel] bounds the rounds of the loop of lines
    739-743. *)
Definition ts_parser__handle_error (fuel : nat) (self : Parser)
    (version : StackVersion) (state : TSStateId) (lookahead : TSTree)
    : Run (option Parser) :=
  let previous_version_count := ts_stack_version_count (stack self) in
  let '(has_shift_action, reduce_actions) :=
    error_actions_of_state (language self) state
                           (seq 0 (symbol_count (language self))) false [] in
  let self := set_reduce_actions self reduce_actions in
  r <- handle_error_reduce self version reduce_actions false ;;
  match r with
  | None => Ret None
  | Some (self, did_reduce) =>
    match mark_error_version (stack self) version previous_version_count
                             did_reduce has_shift_action with
    | None => Ret None
    | Some s =>
      r <- merge_error_versions fuel s version previous_version_count ;;
      match r with
      | None => Ret None
      | Some s => Ret (Some (set_stack self s))
      end
    end
  end.

End HandleError.

(** ** The main loop (parser.c, ts_parser__start, ts_parser_parse) *)

(** ReusableNode: the cursor into the previous tree. *)
Record ReusableNode := mkReusableNode {
  reusable_tree : option TSTree;
  char_index : Z
}.

(** How the walk leaves one version (lines 961-1000): [version++; break],
    [removed = true], [return NULL], [goto error]. *)
Inductive VersionExit :=
| ExitNext
| ExitRemoved
| ExitNull
| ExitError.

(** Lines 964-971: [Some m] when the walk goes on to the next version,
    with [m] the new [max_position]; [None] when the version consumes a
    lookahead. *)
Definition version_is_done (new_position max_position : Z)
    (version : StackVersion) : option Z :=
  if max_position <? new_position then Some new_position
  else if (new_position =? max_position) && (0 <? version)%nat
  then Some max_position
  else None.

(** The variables of [ts_parser_parse] that the walk over the versions
    reads and writes. *)
Record Walk (Stack Lexer : Type) := mkWalk {
  walk_self : TSParser Stack Lexer;
  walk_max_position : Z;
  walk_lookahead : option TSTree;
  walk_position : Z;
  walk_last_position : Z;
  walk_reusable_node : ReusableNode
}.
Arguments mkWalk {Stack Lexer}.
Arguments walk_self {Stack Lexer}.
Arguments walk_max_position {Stack Lexer}.
Arguments walk_lookahead {Stack Lexer}.
Arguments walk_position {Stack Lexer}.
Arguments walk_last_position {Stack Lexer}.
Arguments walk_reusable_node {Stack Lexer}.

Section MainLoop.
Context `{Builtins} `{TreeOps}.
Context {Stack Lexer : Type} `{StackOps Stack} `{LexerOps Lexer}.
Local Abbreviation Parser := (TSParser Stack Lexer).
Local Abbreviation Walk := (Walk Stack Lexer).

(** The two steps the loop calls for each lookahead.  The theorems about
    the loop hold whatever the two do.  [consume_lookahead] returns the
    lookahead with it, which a shift may have marked extra in place. *)
Variable ts_parser__get_lookahead :
  Parser -> StackVersion -> ReusableNode ->
  option TSTree * Parser * ReusableNode.
Variable ts_parser__consume_lookahead :
  Parser -> StackVersion -> TSTree -> Run (ParseActionResult * Parser * TSTree).

Definition ts_parser__start (self : Parser) (input : TSInput)
    (previous_tree : option TSTree) : Parser :=
  let self := set_lexer self (ts_lexer_set_input (lexer self) input) in
  let self := set_stack self (ts_stack_clear (stack self)) in
  set_finished_tree self None.

(** Lines 979-985: [None] is [return NULL]. *)
Definition next_lookahead (w : Walk) (version : StackVersion)
    (position last_position : Z) : option (TSTree * Parser * ReusableNode) :=
  let fresh :=
    match ts_parser__get_lookahead (walk_self w) version
                                   (walk_reusable_node w) with
    | (Some lookahead, self, node) => Some (lookahead, self, node)
    | (None, _, _) => None
    end in
  match walk_lookahead w with
  | None => fresh
  | Some lookahead =>
    if negb (position =? last_position) ||
       negb (ts_parser__can_reuse (walk_self w) version lookahead)
    then fresh
    else Some (lookahead, walk_self w, walk_reusable_node w)
  end.

(** The loop over one version (lines 961-1000). *)
Fixpoint process_version (fuel : nat) (w : Walk) (version : StackVersion)
    : Run (VersionExit * Walk) :=
  match fuel with
  | O => OutOfFuel
  | S fuel' =>
    let last_position := walk_position w in
    let new_position :=
      chars (ts_stack_top_position (stack (walk_self w)) version) in
    match version_is_done new_position (walk_max_position w) version with
    | Some max_position =>
      Ret (ExitNext,
           mkWalk (walk_self w) max_position (walk_lookahead w)
                  (walk_position w) last_position (walk_reusable_node w))
    | None =>
      let position := new_position in
      match next_lookahead w version position last_position with
      | None =>
        Ret (ExitNull,
             mkWalk (walk_self w) (walk_max_position w) None position
                    last_position (walk_reusable_node w))
      | Some (lookahead, self, node) =>
        '(result, self, lookahead) <-
          ts_parser__consume_lookahead self version lookahead ;;
        let w' := mkWalk self (walk_max_position w) (Some lookahead) position
                         last_position node in
        match result with
        | ParseActionFailed => Ret (ExitError, w')
        | ParseActionRemoved => Ret (ExitRemoved, w')
        | ParseActionUpdated => process_version fuel' w' version
        end
      end
    end
  end.

(** The walk over the versions (lines 957-1001), from [version] on. *)
Fixpoint process_versions (fuel : nat) (w : Walk)
    (current_reusable_node : ReusableNode) (version : StackVersion)
    : Run (VersionExit * Walk) :=
  if (version <? ts_stack_version_count (stack (walk_self w)))%nat then
    match fuel with
    | O => OutOfFuel
    | S fuel' =>
      let w := mkWalk (walk_self w) (walk_max_position w) (walk_lookahead w)
                      (walk_position w) (walk_last_position w)
                      current_reusable_node in
      '(exit, w) <- process_version fuel w version ;;
      match exit with
      | ExitNext => process_versions fuel' w current_reusable_node (S version)
      | ExitRemoved => process_versions fuel' w current_reusable_node version
      | ExitNull => Ret (ExitNull, w)
      | ExitError => Ret (ExitError, w)
      end
    end
  else Ret (ExitNext, w).

(** The outer loop (lines 951-1017): the tree returned, NULL included.
    [ts_tree_assign_parents] writes the [context] members only, which
    the model leaves out. *)
Fixpoint parse_cycles (fuel : nat) (self : Parser) (max_position : Z)
    (reusable_node current_reusable_node : ReusableNode)
    : Run (option TSTree * Parser) :=
  match fuel with
  | O => OutOfFuel
  | S fuel' =>
    let self :=
      set_is_split self (1 <? ts_stack_version_count (stack self))%nat in
    let w := mkWalk self max_position None 0 0 reusable_node in
    '(exit, w) <- process_versions fuel w current_reusable_node 0%nat ;;
    match exit with
    | ExitNull | ExitError => Ret (None, walk_self w)
    | _ =>
      let self := walk_self w in
      let current_reusable_node := walk_reusable_node w in
      let '(_, s) := ts_stack_condense (stack self) in
      let self := set_stack self s in
      if (ts_stack_version_count (stack self) =? 0)%nat then
        let self := set_stack self (ts_stack_clear (stack self)) in
        Ret (finished_tree self, self)
      else
        parse_cycles fuel' self (walk_max_position w) (walk_reusable_node w)
                     current_reusable_node
    end
  end.

(** [reusable_node] is not initialised in the source; the walk assigns
    it before it is read as soon as the stack has a version. *)
Definition ts_parser_parse (fuel : nat) (self : Parser) (input : TSInput)
    (previous_tree : option TSTree) : Run (option TSTree * Parser) :=
  let self := ts_parser__start self input previous_tree in
  let current_reusable_node := mkReusableNode previous_tree 0 in
  parse_cycles fuel self 0 current_reusable_node current_reusable_node.

End MainLoop.

(** ** The properties stated about the driver

    The predicates and relations in which the theorems below are
    stated.  None of them is part of the driver. *)

Section Properties.
Context `{Builtins}.
Context {Stack Lexer : Type} `{StackOps Stack}.
Local Abbreviation versions := ts_stack_version_count.

(** What lines 417-424 leave in a pushed node: under a fragile
    reduction, a parser that was split when the cycle began, or a stack
    of several versions, both fragile flags and the error parse state;
    otherwise the top state of the slice's version. *)
Definition marked_by_reduce (fragile split : bool)
    (node : ReducedNode Stack) : Prop :=
  let parent := rn_parent node in
  if fragile || split || (1 <? ts_stack_version_count (rn_stack node))%nat
  then fragile_left parent = true /\ fragile_right parent = true /\
       parse_state parent = TS_TREE_STATE_ERROR
  else parse_state parent =
       ts_stack_top_state (rn_stack node) (rn_version node).

(** The same in the words of the spec, which name the fragile reduction
    and the stack of several versions only. *)
Definition marked_as_specified (fragile : bool) (node : ReducedNode Stack)
    : Prop :=
  let parent := rn_parent node in
  if fragile || (1 <? versions (rn_stack node))%nat
  then fragile_left parent = true /\ fragile_right parent = true /\
       parse_state parent = TS_TREE_STATE_ERROR
  else parse_state parent =
       ts_stack_top_state (rn_stack node) (rn_version node).

(** What the error handler relies on in stack.c: a push changes neither
    the number of versions nor the top of another version; a merge, a
    removal and a renumbering each take one version away; a pop puts its
    slices under versions it adds, and yields a slice when it succeeds. *)
Record StackLaws : Prop := {
  push_versions : forall s v t pending state s',
    ts_stack_push s v t pending state = Some s' -> versions s' = versions s;
  push_top_state : forall s v t pending state s',
    ts_stack_push s v t pending state = Some s' ->
    ts_stack_top_state s' v = state;
  push_other_top_state : forall s v t pending state s' v',
    ts_stack_push s v t pending state = Some s' -> v' <> v ->
    ts_stack_top_state s' v' = ts_stack_top_state s v';
  merge_versions : forall s v1 v2 s',
    ts_stack_merge s v1 v2 = (true, s') -> S (versions s') = versions s;
  merge_top_state : forall s v1 v2 s',
    ts_stack_merge s v1 v2 = (true, s') -> (v1 < v2)%nat ->
    ts_stack_top_state s' v1 = ts_stack_top_state s v1;
  remove_versions : forall s v,
    (v < versions s)%nat ->
    S (versions (ts_stack_remove_version s v)) = versions s;
  renumber_versions : forall s v1 v2,
    (v2 < v1)%nat -> (v1 < versions s)%nat ->
    S (versions (ts_stack_renumber_version s v1 v2)) = versions s;
  merge_from_versions : forall s start,
    (Nat.min (versions s) (S start) <= versions (ts_stack_merge_from s start))%nat;
  pop_count_versions : forall s v count pop s',
    ts_stack_pop_count s v count = (pop, s') ->
    (versions s <= versions s')%nat /\
    forall slice, In slice (pop_slices pop) ->
                  (versions s <= slice_version slice < versions s')%nat;
  pop_count_slice : forall s v count pop s',
    ts_stack_pop_count s v count = (pop, s') ->
    pop_status pop = StackPopSucceeded -> pop_slices pop <> []
}.

(** The loop of lines 739-743 as a relation: while there are more
    versions than on entry, the first of them gets the marker and is
    merged into [version]. *)
Inductive markers_merged (version : StackVersion) (entry_count : nat)
  : Stack -> Stack -> Prop :=
| markers_done s :
    (versions s <= entry_count)%nat ->
    markers_merged version entry_count s s
| markers_step s pushed merged s' :
    (entry_count < versions s)%nat ->
    ts_stack_push s entry_count None false ts_parse_state_error = Some pushed ->
    ts_stack_merge pushed version entry_count = (true, merged) ->
    markers_merged version entry_count merged s' ->
    markers_merged version entry_count s s'.

(** The position of [version] on the stack the walk holds. *)
Definition walk_top_chars (w : Walk Stack Lexer) (version : StackVersion)
    : Z :=
  chars (ts_stack_top_position (stack (walk_self w)) version).

End Properties.

(** The simulation of shifts that the spec describes: from [state], the
    trees are shifted one after the other along the table's last action,
    which must be a shift; a tree that is extra, or whose action is, is
    passed over without a change of state.  [shifts_to l state trees
    state' n] says the simulation ends in [state'] after [n] trees that
    were not passed over. *)
Inductive shifts_to (l : TSLanguage)
  : TSStateId -> list TSTree -> TSStateId -> nat -> Prop :=
| shifts_done state : shifts_to l state [] state 0
| shifts_over state tree rest state' n :
    is_shift (ts_language_last_action l state (symbol tree)) = true ->
    action_extra (ts_language_last_action l state (symbol tree))
      || extra tree = true ->
    shifts_to l state rest state' n ->
    shifts_to l state (tree :: rest) state' n
| shifts_tree state tree rest state' n :
    is_shift (ts_language_last_action l state (symbol tree)) = true ->
    action_extra (ts_language_last_action l state (symbol tree))
      || extra tree = false ->
    shifts_to l (data_to_state (ts_language_last_action l state (symbol tree)))
              rest state' n ->
    shifts_to l state (tree :: rest) state' (S n).

(** A repair as the validation accepts it: some first part of the trees
    below the error, taken from the bottom of the stack upwards, shifts
    from the start state with [goal_count_below] trees counted; from
    there the trees above the error shift; and the state reached has,
    for the lookahead symbol, a reduce action of the goal symbol. *)
Definition repair_chain (l : TSLanguage) (trees_below trees_above : list TSTree)
    (start_state : TSStateId) (goal_symbol : TSSymbol)
    (goal_count_below : nat) (lookahead_symbol : TSSymbol) : Prop :=
  exists (first rest : list TSTree) (state1 state2 : TSStateId) (n : nat),
    rev trees_below = first ++ rest /\
    shifts_to l start_state first state1 goal_count_below /\
    shifts_to l state1 trees_above state2 n /\
    has_reduce_of l state2 lookahead_symbol goal_symbol = true.

(** The search is the callback run at one stack frame after the other,
    in the order the iteration descends the stack. *)
Record Frame := mkFrame {
  frame_state : TSStateId;
  frame_trees : list TSTree;
  frame_tree_count : nat;
  frame_is_done : bool;
  frame_is_pending : bool
}.

Definition callback_at (session : ErrorRepairSession) (f : Frame)
    : ErrorRepairSession :=
  snd (ts_parser__error_repair_callback session (frame_state f)
         (frame_trees f) (frame_tree_count f) (frame_is_done f)
         (frame_is_pending f)).

Definition repair_search (frames : list Frame) (session : ErrorRepairSession)
    : ErrorRepairSession :=
  fold_left callback_at frames session.

(** The sessions of a search, one after each candidate tried. *)
Fixpoint candidates_trace (state : TSStateId) (trees : list TSTree)
    (tree_count : nat) (repairs : list ReduceAction)
    (session : ErrorRepairSession) : list ErrorRepairSession :=
  match repairs with
  | [] => []
  | repair :: rest =>
    let session' := snd (fst (try_repair state trees tree_count session repair)) in
    session' :: candidates_trace state trees tree_count rest session'
  end.

Fixpoint repair_search_trace (frames : list Frame)
    (session : ErrorRepairSession) : list ErrorRepairSession :=
  match frames with
  | [] => []
  | f :: rest =>
    candidates_trace (frame_state f) (frame_trees f) (frame_tree_count f)
                     (session_repairs session) session ++
    repair_search_trace rest (callback_at session f)
  end.

(** [later] holds the repair of [earlier], or one that skips strictly
    fewer trees. *)
Definition same_or_fewer_skipped (earlier later : ErrorRepairSession) : Prop :=
  found_repair later = true /\
  ((best_repair_skip_count later < best_repair_skip_count earlier)%nat \/
   (best_repair_skip_count later = best_repair_skip_count earlier /\
    best_repair later = best_repair earlier /\
    best_repair_next_state later = best_repair_next_state earlier)).

(** An action that line 697 does not pass over and that lines 700-703
    count: a shift or a recover that is not extra. *)
Definition shifts_or_recovers (a : TSParseAction) : bool :=
  negb (action_extra a) &&
  (action_type_eqb (action_type a) TSParseActionTypeShift ||
   action_type_eqb (action_type a) TSParseActionTypeRecover).

Definition has_shift_or_recover (l : TSLanguage) (state : TSStateId) : bool :=
  existsb (fun sym => existsb shifts_or_recovers
                              (ts_language_actions l state (Z.of_nat sym)))
          (seq 0 (symbol_count l)).

(** The number of the first [k] trees that are not extra. *)
Definition essential_before (trees : list TSTree) (k : nat) : nat :=
  ts_tree_array_essential_count (firstn k trees).

(** The sum of the sizes of the first [k] trees that are not extra. *)
Definition essential_chars_before (trees : list TSTree) (k : nat) : Z :=
  fold_right (fun t n => if extra t then n else chars (size t) + n) 0
             (firstn k trees).

(** ** A reference runtime

    One implementation of the four interfaces, on which the examples at
    the end of the file are run.  The theorems do not depend on it. *)

(** Reference values of the constants: the error symbol and the two
    largest [unsigned short] values as state markers. *)
Definition reference_builtins : Builtins := {|
  ts_builtin_sym_error := 0;
  ts_builtin_sym_end := 1;
  ts_parse_state_error := 65535;
  TS_TREE_STATE_INDEPENDENT := 65535;
  TS_TREE_STATE_ERROR := 65534
|}.

(** Modelled from the spec: [ts_tree_compare] of tree.c, "a deterministic
    pre-order symbol/shape comparison": the symbols, then the child
    counts, then the children from left to right. *)
Fixpoint reference_compare (left right : TSTree) : Z :=
  if symbol left <? symbol right then -1
  else if symbol right <? symbol left then 1
  else if (length (children left) <? length (children right))%nat then -1
  else if (length (children right) <? length (children left))%nat then 1
  else
    (fix compare_children (ls rs : list TSTree) : Z :=
       match ls, rs with
       | l :: ls', r :: rs' =>
         match reference_compare l r with
         | 0 => compare_children ls' rs'
         | c => c
         end
       | _, _ => 0
       end) (children left) (children right).

Definition length_add (a b : TSLength) : TSLength :=
  mkLength (size_add (chars a) (chars b)).

Definition ts_tree_total_size (t : TSTree) : TSLength :=
  length_add (padding t) (size t).

(** Modelled from the spec: [ts_tree_set_children] of tree.c.  The new
    padding is the first child's, the size spans the children (I1), the
    error size adds the children's, an error child counting with its own
    size (I2). *)
Definition reference_child_error_size (c : TSTree) : Z :=
  if symbol c =? 0 then chars (size c) else error_size c.

Definition reference_set_children (t : TSTree) (cs : list TSTree) : TSTree :=
  let pad := match cs with [] => padding t | c :: _ => padding c end in
  let sz :=
    match cs with
    | [] => size t
    | c :: rest => fold_left (fun s x => length_add s (ts_tree_total_size x))
                             rest (size c)
    end in
  let err :=
    fold_left (fun e c => size_add e (reference_child_error_size c)) cs 0 in
  mkTree (symbol t) cs pad sz err (extra t) (lex_state t) (parse_state t)
         (fragile_left t) (fragile_right t) (has_changes t)
         (length cs) (length cs).

Definition reference_leaf (sym : TSSymbol) (pad sz : TSLength) : TSTree :=
  mkTree sym [] pad sz 0 false 65535 65534 false false false 0 0.

Definition reference_tree_ops : TreeOps := {|
  ts_tree_compare := reference_compare;
  ts_tree_make_leaf := fun sym pad sz md => Some (reference_leaf sym pad sz);
  ts_tree_make_error := fun sz pad c =>
    Some (set_fragile (reference_leaf 0 pad sz) true true);
  ts_tree_make_node := fun sym cs md =>
    Some (reference_set_children
            (reference_leaf sym (mkLength 0) (mkLength 0)) cs);
  ts_tree_make_error_node := fun cs =>
    Some (set_fragile
            (reference_set_children
               (reference_leaf 0 (mkLength 0) (mkLength 0)) cs) true true);
  ts_tree_set_children := reference_set_children
|}.

(** A lexer that reads its tokens off a list. *)
Definition reference_lexer_ops : LexerOps (list TSLexerResult) := {|
  TSInput := list TSLexerResult;
  ts_lexer_set_input := fun _ input => input;
  ts_lexer_reset := fun lx _ => lx;
  ts_lexer_run := fun lx _ _ =>
    match lx with
    | [] => (mkLexerResult 1 (mkLength 0) (mkLength 0) false 0, [])
    | r :: rest => (r, rest)
    end
|}.

(** Modelled from the spec: the stack of stack.c, which is not under
    src/, for a stack whose versions share nothing.  A version is the
    list of its entries from the top down; the entry of a tree holds the
    state the tree was pushed with.  A pop leaves the version it pops
    from as it is and puts what is left under a new version, the last
    one, as the driver expects of it when it renumbers that version onto
    the old one.  Each version is one path: a merge keeps the path of
    the version merged into. *)
Record StackEntry := mkEntry {
  entry_tree : option TSTree;
  entry_pending : bool;
  entry_state : TSStateId
}.

Definition StackHead := list StackEntry.
Definition ReferenceStack := list StackHead.

Definition head_state (h : StackHead) : TSStateId :=
  match h with
  | [] => 0
  | e :: _ => entry_state e
  end.

Definition head_chars (h : StackHead) : Z :=
  fold_right (fun e n =>
                match entry_tree e with
                | Some t => ts_tree_total_chars t + n
                | None => n
                end) 0 h.

Definition head_of (s : ReferenceStack) (v : StackVersion) : StackHead :=
  nth v s [].

Fixpoint remove_nth {A : Type} (n : nat) (l : list A) : list A :=
  match l, n with
  | [], _ => []
  | _ :: rest, O => rest
  | x :: rest, S n' => x :: remove_nth n' rest
  end.

Fixpoint replace_nth {A : Type} (n : nat) (x : A) (l : list A) : list A :=
  match l, n with
  | [], _ => []
  | _ :: rest, O => x :: rest
  | y :: rest, S n' => y :: replace_nth n' x rest
  end.

Definition reference_push (s : ReferenceStack) (v : StackVersion)
    (t : option TSTree) (pending : bool) (state : TSStateId)
    : option ReferenceStack :=
  if (v <? length s)%nat
  then Some (replace_nth v (mkEntry t pending state :: head_of s v) s)
  else None.

(** The walk of [ts_stack_pop_count] down one version: it ends when
    [goal] trees that are not extra are popped, or at a node in the
    error state; [trees] are the popped trees, left to right. *)
Fixpoint pop_count_walk (h : StackHead) (goal count : nat)
    (trees : list TSTree) : StackPopStatus * list TSTree * StackHead :=
  if (count =? goal)%nat then (StackPopSucceeded, trees, h)
  else if head_state h =? 65535 then (StackPopStoppedAtError, trees, h)
  else
    match h with
    | [] => (StackPopFailed, trees, h)
    | e :: rest =>
      match entry_tree e with
      | Some t =>
        pop_count_walk rest goal (if extra t then count else S count)
                       (t :: trees)
      | None => pop_count_walk rest goal count trees
      end
    end.

Definition reference_pop_count (s : ReferenceStack) (v : StackVersion)
    (count : nat) : StackPopResult * ReferenceStack :=
  if (v <? length s)%nat then
    match pop_count_walk (head_of s v) count 0 [] with
    | (StackPopFailed, _, _) => (mkPop StackPopFailed [], s)
    | (status, trees, rest) =>
      (mkPop status [mkSlice trees (length s)], s ++ [rest])
    end
  else (mkPop StackPopFailed [], s).

Definition head_trees (h : StackHead) : list TSTree :=
  fold_left (fun trees e =>
               match entry_tree e with
               | Some t => t :: trees
               | None => trees
               end) h [].

Definition reference_pop_all (s : ReferenceStack) (v : StackVersion)
    : StackPopResult * ReferenceStack :=
  if (v <? length s)%nat
  then (mkPop StackPopSucceeded [mkSlice (head_trees (head_of s v)) (length s)],
        s ++ [[]])
  else (mkPop StackPopFailed [], s).

Definition reference_pop_pending (s : ReferenceStack) (v : StackVersion)
    : StackPopResult * ReferenceStack :=
  match head_of s v with
  | mkEntry (Some t) true _ :: rest =>
    (mkPop StackPopSucceeded [mkSlice [t] (length s)], s ++ [rest])
  | _ => (mkPop StackPopSucceeded [], s)
  end.

(** The walk of [ts_stack_iterate]: the callback is called at every node
    from the top down, with the trees popped so far in the order they
    were popped and the number of them that are not extra. *)
Fixpoint iterate_walk {P : Type} (callback : StackIterateCallback P)
    (h : StackHead) (trees : list TSTree) (tree_count : nat) (payload : P)
    (s : ReferenceStack) (slices : list StackSlice)
    : list StackSlice * P * ReferenceStack :=
  let is_done := match h with [] => true | _ => false end in
  let '(action, payload) :=
    callback payload (head_state h) trees tree_count is_done false in
  let '(slices, s) :=
    if iterate_pop action
    then (slices ++ [mkSlice (rev trees) (length s)], s ++ [h])
    else (slices, s) in
  if iterate_stop action then (slices, payload, s)
  else
    match h with
    | [] => (slices, payload, s)
    | e :: rest =>
      match entry_tree e with
      | Some t =>
        iterate_walk callback rest (trees ++ [t])
                     (if extra t then tree_count else S tree_count)
                     payload s slices
      | None => iterate_walk callback rest trees tree_count payload s slices
      end
    end.

Definition reference_iterate (P : Type) (s : ReferenceStack)
    (v : StackVersion) (callback : StackIterateCallback P) (payload : P)
    : StackPopResult * P * ReferenceStack :=
  let '(slices, payload, s) :=
    iterate_walk callback (head_of s v) [] 0 payload s [] in
  (mkPop StackPopSucceeded slices, payload, s).

Definition can_merge (a b : StackHead) : bool :=
  (head_state a =? head_state b) && (head_chars a =? head_chars b).

Definition reference_merge (s : ReferenceStack) (v1 v2 : StackVersion)
    : bool * ReferenceStack :=
  if (v1 <? length s)%nat && (v2 <? length s)%nat && negb (v1 =? v2)%nat &&
     can_merge (head_of s v1) (head_of s v2)
  then (true, remove_nth v2 s)
  else (false, s).

(** The versions of [hs] that cannot be merged into one kept before. *)
Fixpoint merge_heads (kept hs : list StackHead) : list StackHead :=
  match hs with
  | [] => kept
  | h :: rest =>
    if existsb (fun k => can_merge k h) kept then merge_heads kept rest
    else merge_heads (kept ++ [h]) rest
  end.

Definition reference_merge_from (s : ReferenceStack) (start : nat)
    : ReferenceStack :=
  firstn start s ++ merge_heads [] (skipn start s).

Definition reference_condense (s : ReferenceStack) : bool * ReferenceStack :=
  let s' := merge_heads [] s in
  ((length s' <? length s)%nat, s').

Definition reference_renumber (s : ReferenceStack) (v1 v2 : StackVersion)
    : ReferenceStack :=
  remove_nth v1 (replace_nth v2 (head_of s v1) s).

Definition reference_stack_ops : StackOps ReferenceStack := {|
  ts_stack_version_count := fun s => length s;
  ts_stack_top_state := fun s v => head_state (head_of s v);
  ts_stack_top_position := fun s v => mkLength (head_chars (head_of s v));
  ts_stack_push := reference_push;
  ts_stack_pop_count := reference_pop_count;
  ts_stack_pop_pending := reference_pop_pending;
  ts_stack_pop_all := reference_pop_all;
  ts_stack_iterate := reference_iterate;
  ts_stack_remove_version := fun s v => remove_nth v s;
  ts_stack_renumber_version := reference_renumber;
  ts_stack_merge := reference_merge;
  ts_stack_merge_from := reference_merge_from;
  ts_stack_condense := reference_condense;
  ts_stack_clear := fun _ => [[]]
|}.

(** ** Example inputs *)

Definition no_metadata : TSSymbolMetadata := mkMetadata true true false false.

Definition shift_to (state : TSStateId) : TSParseAction :=
  mkAction TSParseActionTypeShift false false false state 0 0.

Definition shift_extra : TSParseAction :=
  mkAction TSParseActionTypeShift true false false 0 0 0.

Definition reduce_to (sym : TSSymbol) (count : nat) : TSParseAction :=
  mkAction TSParseActionTypeReduce false false false 0 sym count.

(** A leaf of one character. *)
Definition leaf (sym : TSSymbol) : TSTree :=
  reference_leaf sym (mkLength 0) (mkLength 1).

Definition ReferenceParser := TSParser ReferenceStack (list TSLexerResult).

Definition parser_on (l : TSLanguage) (s : ReferenceStack)
    (tokens : list TSLexerResult) : ReferenceParser :=
  mkParser tokens s l [] None false (leaf 0).

(** A table whose only entry is a reduction of symbol 7 from one child,
    on symbol 5 in state 0. *)
Definition reduce_only_language : TSLanguage :=
  mkLanguage 8 (fun _ => 0)
             (fun state sym =>
                if (state =? 0) && (sym =? 5) then [reduce_to 7 1] else [])
             (fun _ => no_metadata).

Section ExampleInputs.
#[local] Existing Instance reference_builtins.
#[local] Existing Instance reference_tree_ops.
#[local] Existing Instance reference_stack_ops.
#[local] Existing Instance reference_lexer_ops.

(** A parse table given by its entries that are not empty. *)
Definition table (entries : list (TSStateId * TSSymbol * list TSParseAction))
    (state : TSStateId) (sym : TSSymbol) : list TSParseAction :=
  match find (fun e => (fst (fst e) =? state) && (snd (fst e) =? sym))
             entries with
  | Some e => snd e
  | None => []
  end.

Definition run_value {A : Type} (default : A) (m : Run A) : A :=
  match m with
  | Ret a => a
  | _ => default
  end.

(** A leaf of [n] characters. *)
Definition wide (sym : TSSymbol) (n : Z) : TSTree :=
  reference_leaf sym (mkLength 0) (mkLength n).

Definition token (sym : TSSymbol) (fragile : bool) : TSLexerResult :=
  mkLexerResult sym (mkLength 0) (mkLength 1) fragile 0.

Definition lexing_parser : ReferenceParser :=
  parser_on reduce_only_language [[]] [token 5 true].

Definition lexed_fragile : option TSTree * ReferenceParser :=
  ts_parser__lex lexing_parser 3 false.

(** State 5 has a shift of symbol 1 that is extra and a reduction of
    symbol 7 from one child; state 0 shifts symbol 7 to state 9. *)
Definition error_language : TSLanguage :=
  mkLanguage 8 (fun _ => 0)
             (table [ (5, 1, [shift_extra]); (5, 2, [reduce_to 7 1]);
                      (0, 7, [shift_to 9]) ])
             (fun _ => no_metadata).

(** One version: a leaf of symbol 2 pushed with state 5. *)
Definition error_stack : ReferenceStack := [[mkEntry (Some (leaf 2)) false 5]].

Definition error_parser : ReferenceParser := parser_on error_language error_stack [].

Definition reduce_run
    : Reduction * ReferenceParser * list (ReducedNode ReferenceStack) :=
  run_value (mkReduction ReduceFailed None, error_parser, [])
            (ts_parser__reduce error_parser 0%nat 7 1 false false).

(** From state 0, symbol 5 shifts to state 1 and from there to state 4.
    In state 1 the lookahead 6 reduces symbol 7 from three children, in
    state 4 it reduces symbol 8 from two.  State 0 shifts symbol 7 to
    state 2 and symbol 8 to state 3, which both have an action for the
    lookahead. *)
Definition repair_language : TSLanguage :=
  mkLanguage 9 (fun _ => 0)
             (table [ (0, 5, [shift_to 1]); (1, 5, [shift_to 4]);
                      (1, 6, [reduce_to 7 3]); (4, 6, [reduce_to 8 2]);
                      (0, 7, [shift_to 2]); (0, 8, [shift_to 3]);
                      (2, 6, [shift_to 9]); (3, 6, [shift_to 9]) ])
             (fun _ => no_metadata).

Definition is_reduce_of (sym : TSSymbol) (count : nat) (a : TSParseAction)
    : bool :=
  action_type_eqb (action_type a) TSParseActionTypeReduce &&
  (data_symbol a =? sym) && (data_child_count a =? count)%nat.

(** Two candidates at one frame of two trees. *)
Definition search_session : ErrorRepairSession :=
  mkSession repair_language [mkReduceAction 7 1; mkReduceAction 8 2] 6 []
            false (mkReduceAction 0 0) 0 0.

Definition search_frames : list Frame :=
  [mkFrame 0 [leaf 5; leaf 5] 2 false false].

(** The session after the first candidate was tried: symbol 7 with one
    tree skipped. *)
Definition first_found : ErrorRepairSession :=
  record_repair search_session (mkReduceAction 7 1) 1 2.

(** A lookahead source that lexes the next token, and a consumer that
    pushes the lookahead on the version. *)
Definition lex_lookahead (self : ReferenceParser) (version : StackVersion)
    (node : ReusableNode) : option TSTree * ReferenceParser * ReusableNode :=
  let '(t, self') := ts_parser__lex self 0 false in (t, self', node).

Definition push_lookahead (self : ReferenceParser) (version : StackVersion)
    (lookahead : TSTree) : Run (ParseActionResult * ReferenceParser * TSTree) :=
  match ts_parser__push self version lookahead 0 with
  | Some self' => Ret (ParseActionUpdated, self', lookahead)
  | None => Ret (ParseActionFailed, self, lookahead)
  end.

(** Version 0 is at position 5 and version 1 at position 3. *)
Definition two_versions : ReferenceStack :=
  [[mkEntry (Some (wide 2 5)) false 0]; [mkEntry (Some (wide 2 3)) false 0]].

Definition behind_walk : Walk ReferenceStack (list TSLexerResult) :=
  mkWalk (parser_on reduce_only_language two_versions
                    [token 2 false; token 2 false; token 2 false])
         5 None 0 0 (mkReusableNode None 0).

Definition behind_run : VersionExit * Walk ReferenceStack (list TSLexerResult) :=
  run_value (ExitError, behind_walk)
            (process_version lex_lookahead push_lookahead 5 behind_walk 1%nat).

(** The same table with a shift of symbol 3 that is not extra in
    state 5. *)
Definition shifting_language : TSLanguage :=
  mkLanguage 8 (fun _ => 0)
             (table [ (5, 3, [shift_to 6]); (5, 2, [reduce_to 7 1]);
                      (0, 7, [shift_to 9]) ])
             (fun _ => no_metadata).

Definition shifting_parser : ReferenceParser :=
  parser_on shifting_language error_stack [].

Definition merged : ReferenceParser :=
  run_value shifting_parser
            (r <- ts_parser__handle_error 1 shifting_parser 0%nat 5 (leaf 3) ;;
             match r with
             | Some self => Ret self
             | None => AssertFailed
             end).

Definition handled : ReferenceParser :=
  run_value error_parser
            (r <- ts_parser__handle_error 1 error_parser 0%nat 5 (leaf 3) ;;
             match r with
             | Some self => Ret self
             | None => AssertFailed
             end).

(** The node that the reduction of symbol 7 makes of the leaf. *)
Definition reduced_leaf : TSTree :=
  set_parse_state
    (set_fragile
       (reference_set_children (reference_leaf 7 (mkLength 0) (mkLength 0))
                               [leaf 2]) true true) TS_TREE_STATE_ERROR.

(** A node of symbol 4 over one leaf of one character. *)
Definition small_root : TSTree :=
  reference_set_children (reference_leaf 4 (mkLength 0) (mkLength 0)) [leaf 6].

(** The slice of an accepted version: a tree of five characters that is
    not extra, then the root. *)
Definition accepted_trees : list TSTree := [wide 3 5; small_root].

Definition accepted_root : TSTree :=
  run_value small_root
            (r <- accept_root accepted_trees ;;
             match r with
             | Some root => Ret root
             | None => AssertFailed
             end).

End ExampleInputs.

(** ** Tree selection: theorems *)

Section SelectionFacts.
Context `{TreeOps}.

Lemma select_tree_both (left right : TSTree) :
  ts_parser__select_tree (Some left) (Some right) =
  if error_size right <? error_size left then true
  else if error_size left <? error_size right then false
  else ts_tree_compare left right =? 1.
Proof.
  unfold ts_parser__select_tree.
  destruct (error_size right <? error_size left); [reflexivity|].
  destruct (error_size left <? error_size right); [reflexivity|].
  destruct (ts_tree_compare left right =? -1) eqn:Hm.
  - apply Z.eqb_eq in Hm. rewrite Hm. reflexivity.
  - destruct (ts_tree_compare left right =? 1); reflexivity.
Qed.

(** C1.  For two candidate trees, [ts_parser__select_tree] takes the
    right one exactly when its error size is smaller than the left
    one's, or the error sizes are equal and [ts_tree_compare left right]
    is 1, that is, the comparison puts the right tree before the left
    one.  When the comparison finds them equal (or puts the left one
    first) the left tree, the existing one, stays. *)
Theorem select_tree_smaller_error_then_earlier (left right : TSTree) :
  ts_parser__select_tree (Some left) (Some right) = true <->
  (error_size right < error_size left \/
   (error_size right = error_size left /\ ts_tree_compare left right = 1)).
Proof.
  rewrite select_tree_both.
  destruct (error_size right <? error_size left) eqn:Hr.
  - apply Z.ltb_lt in Hr. split; auto.
  - apply Z.ltb_ge in Hr.
    destruct (error_size left <? error_size right) eqn:Hl.
    + apply Z.ltb_lt in Hl. split; [discriminate|]. lia.
    + apply Z.ltb_ge in Hl. rewrite Z.eqb_eq. split.
      * intros Hc. right. split; [lia | exact Hc].
      * intros [Hlt | [_ Hc]]; [lia | exact Hc].
Qed.

Lemma select_tree_keeps_existing_on_equal (left right : TSTree) :
  error_size left = error_size right ->
  ts_tree_compare left right = 0 ->
  ts_parser__select_tree (Some left) (Some right) = false.
Proof.
  intros He Hc. rewrite select_tree_both, He, Z.ltb_irrefl, Hc. reflexivity.
Qed.

End SelectionFacts.

Section AcceptFacts.
Context `{Builtins} `{TreeOps}.
Context {Stack Lexer : Type} `{StackOps Stack} `{LexerOps Lexer}.

Lemma start_has_no_finished_tree (self : TSParser Stack Lexer)
    (input : TSInput) (previous_tree : option TSTree) :
  finished_tree (ts_parser__start self input previous_tree) = None.
Proof. reflexivity. Qed.

(** C9.  A NULL left tree loses to any tree and a NULL right tree never
    wins.  So the parse, which starts with no finished tree, takes the
    root of the first slice it accepts as the finished tree, whatever
    the root's error size. *)
Theorem select_tree_null (t : TSTree) :
  ts_parser__select_tree None (Some t) = true /\
  ts_parser__select_tree (Some t) None = false /\
  forall (self : TSParser Stack Lexer) (input : TSInput)
         (previous_tree : option TSTree) (trees : list TSTree)
         (version : StackVersion),
    let started := ts_parser__start self input previous_tree in
    accept_slices started [mkSlice trees version] =
    (r <- accept_root trees ;;
     match r with
     | None => Ret started
     | Some root => Ret (set_finished_tree started (Some root))
     end).
Proof.
  split; [reflexivity | split; [reflexivity |]].
  intros self input previous_tree trees version started.
  cbn [accept_slices slice_trees].
  destruct (accept_root trees) as [[root|] | | |]; reflexivity.
Qed.

End AcceptFacts.

(** ** Reuse and lexing: theorems *)

Lemma action_type_eqb_eq (a b : TSParseActionType) :
  action_type_eqb a b = true <-> a = b.
Proof. destruct a, b; cbn; split; congruence. Qed.

Section LookaheadFacts.
Context `{Builtins} `{TreeOps}.
Context {Stack Lexer : Type} `{StackOps Stack} `{LexerOps Lexer}.

Lemma lex_state_allows_iff (l : TSLanguage) (top_state : TSStateId)
    (tree : TSTree) :
  lex_state_allows l top_state tree = true <->
  (lex_state tree = TS_TREE_STATE_INDEPENDENT \/
   lex_state tree = ts_language_lex_state l top_state).
Proof.
  unfold lex_state_allows.
  destruct (lex_state tree =? TS_TREE_STATE_INDEPENDENT) eqn:Hi;
    destruct (lex_state tree =? ts_language_lex_state l top_state) eqn:Hl;
    cbn; rewrite ?Z.eqb_eq, ?Z.eqb_neq in *; split; auto.
  - discriminate.
  - intros [?|?]; contradiction.
Qed.

(** The five tests of [ts_parser__can_reuse]. *)
Lemma can_reuse_tests (self : TSParser Stack Lexer) (version : StackVersion)
    (tree : TSTree) :
  let top_state := ts_stack_top_state (stack self) version in
  let action :=
    ts_language_last_action (language self) top_state (symbol tree) in
  ts_parser__can_reuse self version tree = true <->
  (symbol tree <> ts_builtin_sym_error /\
   (ts_tree_is_fragile tree = true -> parse_state tree = top_state) /\
   lex_state_allows (language self) top_state tree = true /\
   action_type action <> TSParseActionTypeError /\
   action_can_hide_split action = false /\
   (extra tree = true -> action_extra action = true)).
Proof.
  intros top_state action. unfold ts_parser__can_reuse.
  fold top_state. fold action.
  destruct (symbol tree =? ts_builtin_sym_error) eqn:Hs.
  { apply Z.eqb_eq in Hs. split; [discriminate | tauto]. }
  apply Z.eqb_neq in Hs.
  destruct (ts_tree_is_fragile tree) eqn:Hf;
    destruct (parse_state tree =? top_state) eqn:Hp; cbn [andb negb];
    rewrite ?Z.eqb_eq, ?Z.eqb_neq in Hp;
    try (split; [discriminate | intros (_ & Hx & _); tauto]);
    (destruct (lex_state_allows (language self) top_state tree) eqn:Hl;
     cbn [negb]; [| split; [discriminate | intros (_ & _ & Hx & _); discriminate]]);
    (destruct (action_type_eqb (action_type action) TSParseActionTypeError) eqn:Ht;
     cbn [orb];
     [ apply action_type_eqb_eq in Ht; split;
       [discriminate | intros (_ & _ & _ & Hx & _); contradiction] |]);
    (assert (Hne : action_type action <> TSParseActionTypeError)
      by (intros Hx; apply action_type_eqb_eq in Hx; congruence));
    (destruct (action_can_hide_split action) eqn:Hh;
     [ split; [discriminate | intros (_ & _ & _ & _ & Hx & _); discriminate] |]);
    (destruct (extra tree) eqn:He; destruct (action_extra action) eqn:Ha;
     cbn [andb negb]; split; try discriminate; try tauto;
     try (intros _; repeat split; auto; congruence);
     try (intros (_ & _ & _ & _ & _ & Hx); specialize (Hx eq_refl); discriminate)).
Qed.

(** C4, as the code has it.  [ts_parser__can_reuse] returns true exactly
    when its five tests pass.  The test on the table's last action for
    the top state and the tree's symbol asks that the action is not an
    error action and does not carry [can_hide_split]; the action need
    not be a shift. *)
Theorem can_reuse_iff (self : TSParser Stack Lexer) (version : StackVersion)
    (tree : TSTree) :
  let top_state := ts_stack_top_state (stack self) version in
  let action :=
    ts_language_last_action (language self) top_state (symbol tree) in
  ts_parser__can_reuse self version tree = true <->
  (symbol tree <> ts_builtin_sym_error /\
   (ts_tree_is_fragile tree = true -> parse_state tree = top_state) /\
   lex_state_allows (language self) top_state tree = true /\
   action_type action <> TSParseActionTypeError /\
   action_can_hide_split action = false /\
   (extra tree = true -> action_extra action = true)).
Proof. exact (can_reuse_tests self version tree). Qed.

(** C10.  A token that the lexer reports as fragile gets as its
    [lex_state] the lex state it was lexed in.  When that state is not
    the INDEPENDENT marker, the lex-state test of [ts_parser__can_reuse]
    passes for the token exactly at the top states that the language
    maps to that lex state, and [ts_parser__can_reuse] is false at every
    other top state. *)
Theorem lex_fragile_keeps_lex_state (self self' : TSParser Stack Lexer)
    (state : TSStateId) (error_mode : bool) (tree : TSTree) :
  ts_parser__lex self state error_mode = (Some tree, self') ->
  lr_is_fragile (fst (ts_lexer_run (lexer self) state error_mode)) = true ->
  lex_state tree = state /\
  (state <> TS_TREE_STATE_INDEPENDENT ->
   (forall (l : TSLanguage) (top_state : TSStateId),
      lex_state_allows l top_state tree = true <->
      ts_language_lex_state l top_state = state) /\
   (forall (other : TSParser Stack Lexer) (version : StackVersion),
      ts_parser__can_reuse other version tree = true ->
      ts_language_lex_state (language other)
        (ts_stack_top_state (stack other) version) = state)).
Proof.
  unfold ts_parser__lex. intros Hlex Hfragile.
  destruct (ts_lexer_run (lexer self) state error_mode) as [lex_result lexer'].
  cbn [fst] in Hfragile. rewrite Hfragile in Hlex.
  assert (Hstate : lex_state tree = state).
  { destruct (lr_symbol lex_result =? ts_builtin_sym_error);
      [destruct (ts_tree_make_error _ _ _) | destruct (ts_tree_make_leaf _ _ _ _)];
      inversion Hlex; reflexivity. }
  split; [exact Hstate |]. intros Hnot.
  assert (Hallow : forall l top_state,
             lex_state_allows l top_state tree = true <->
             ts_language_lex_state l top_state = state).
  { intros l top_state. rewrite lex_state_allows_iff, Hstate. split.
    - intros [Hi | Hl]; [contradiction | symmetry; exact Hl].
    - intros Hl. right. symmetry. exact Hl. }
  split; [exact Hallow |].
  intros other version Hreuse.
  apply can_reuse_tests in Hreuse. apply Hallow. tauto.
Qed.

End LookaheadFacts.

(** ** Reduction: theorems *)

Section ReduceFacts.
Context `{Builtins} `{TreeOps}.
Context {Stack Lexer : Type} `{StackOps Stack}.
Local Abbreviation Parser := (TSParser Stack Lexer).

Lemma reduce_mark_parent_spec (fragile split : bool) (version_count : nat)
    (state : TSStateId) (parent : TSTree) :
  let marked := reduce_mark_parent fragile split version_count state parent in
  if fragile || split || (1 <? version_count)%nat
  then fragile_left marked = true /\ fragile_right marked = true /\
       parse_state marked = TS_TREE_STATE_ERROR
  else parse_state marked = state.
Proof.
  unfold reduce_mark_parent.
  destruct (fragile || split || (1 <? version_count)%nat); cbn; auto.
Qed.

Lemma push_is_split (self self' : Parser) version tree state :
  ts_parser__push self version tree state = Some self' ->
  is_split self' = is_split self.
Proof.
  unfold ts_parser__push.
  destruct (ts_stack_push _ _ _ _ _); intros E; inversion E; reflexivity.
Qed.

Lemma push_trees_is_split trees : forall (self self' : Parser) version state,
  push_trees self version trees state = Some self' ->
  is_split self' = is_split self.
Proof.
  induction trees as [|t rest IH]; cbn; intros self self' version state E.
  - inversion E; reflexivity.
  - destruct (ts_parser__push self version t state) as [self1|] eqn:E1;
      [| discriminate].
    rewrite (IH _ _ _ _ E). eapply push_is_split; eassumption.
Qed.

Lemma reduce_push_parent_marked (self self' : Parser) symbol extra fragile
    parent slice node :
  reduce_push_parent self symbol extra fragile parent slice =
    Ret (Some (self', node)) ->
  marked_by_reduce fragile (is_split self) node /\
  is_split self' = is_split self.
Proof.
  unfold reduce_push_parent.
  set (state := ts_stack_top_state (stack self) (slice_version slice)).
  set (marked := reduce_mark_parent fragile (is_split self)
                   (ts_stack_version_count (stack self)) state parent).
  pose proof (reduce_mark_parent_spec fragile (is_split self)
                (ts_stack_version_count (stack self)) state parent) as Hm.
  cbv zeta in Hm. fold marked in Hm.
  assert (Hgoal : forall final new_state,
    fragile_left final = fragile_left marked ->
    fragile_right final = fragile_right marked ->
    parse_state final = parse_state marked ->
    match ts_parser__push self (slice_version slice) final new_state with
    | Some self1 =>
      match push_trees self1 (slice_version slice)
              (skipn (child_count final) (slice_trees slice)) new_state with
      | Some self2 =>
        Ret (Some (self2, mkReducedNode (stack self) (slice_version slice) final))
      | None => Ret None
      end
    | None => Ret None
    end = Ret (Some (self', node)) ->
    marked_by_reduce fragile (is_split self) node /\
    is_split self' = is_split self).
  { intros final new_state Hl Hr Hp E.
    destruct (ts_parser__push self (slice_version slice) final new_state)
      as [self1|] eqn:E1; [| discriminate].
    destruct (push_trees self1 _ _ _) as [self2|] eqn:E2; [| discriminate].
    inversion E; subst. split.
    - unfold marked_by_reduce. cbn [rn_parent rn_stack rn_version].
      rewrite Hl, Hr, Hp. exact Hm.
    - rewrite (push_trees_is_split _ _ _ _ _ E2).
      eapply push_is_split; eassumption. }
  destruct extra.
  - cbn [bind]. apply Hgoal; reflexivity.
  - destruct (action_type_eqb _ TSParseActionTypeShift ||
              action_type_eqb _ TSParseActionTypeRecover);
      cbn [bind]; [apply Hgoal; reflexivity | discriminate].
Qed.

Lemma switch_children_is_split (self self' : Parser) tree children b tree' :
  ts_parser__switch_children self tree children = (b, tree', self') ->
  is_split self' = is_split self.
Proof.
  unfold ts_parser__switch_children.
  destruct (ts_parser__select_tree _ _); intros E; inversion E; reflexivity.
Qed.

Lemma reduce_slices_marked rest :
  forall (self self' : Parser) symbol metadata extra fragile parent slice
         built built' ok,
    reduce_slices self symbol metadata extra fragile parent slice rest built =
      Ret (ok, self', built') ->
    Forall (marked_by_reduce fragile (is_split self)) built ->
    Forall (marked_by_reduce fragile (is_split self)) built'.
Proof.
  induction rest as [|next rest IH];
    intros self self' symbol metadata extra fragile parent slice built built'
           ok E Hbuilt; cbn [reduce_slices] in E.
  - destruct (reduce_push_parent self symbol extra fragile parent slice)
      as [[[self1 node]|] | | |] eqn:Ep; cbn [bind] in E; try discriminate;
      inversion E; subst; auto.
    apply Forall_app. split; [exact Hbuilt |].
    constructor; [| constructor].
    eapply reduce_push_parent_marked; eassumption.
  - destruct (slice_version next =? slice_version slice)%nat.
    + destruct (ts_parser__switch_children self parent _)
        as [[b parent'] self1] eqn:Es.
      pose proof (switch_children_is_split _ _ _ _ _ _ Es) as Hsplit.
      destruct b; rewrite <- Hsplit; eapply IH; try eassumption;
        rewrite Hsplit; exact Hbuilt.
    + destruct (reduce_push_parent self symbol extra fragile parent slice)
        as [[[self1 node]|] | | |] eqn:Ep; cbn [bind] in E; try discriminate.
      * destruct (reduce_push_parent_marked _ _ _ _ _ _ _ _ Ep)
          as [Hnode Hsplit].
        assert (Hall : Forall (marked_by_reduce fragile (is_split self))
                              (built ++ [node])).
        { apply Forall_app. split; [exact Hbuilt | constructor; auto]. }
        destruct (ts_tree_make_node symbol _ metadata) as [parent'|].
        -- rewrite <- Hsplit. eapply IH; [eassumption |].
           rewrite Hsplit. exact Hall.
        -- inversion E; subst. exact Hall.
      * inversion E; subst. exact Hbuilt.
Qed.

Lemma switch_children_stack (self self' : Parser) tree children b tree' :
  ts_parser__switch_children self tree children = (b, tree', self') ->
  stack self' = stack self.
Proof.
  unfold ts_parser__switch_children.
  destruct (ts_parser__select_tree _ _); intros E; inversion E; reflexivity.
Qed.

Section ReduceVersions.
Hypothesis laws : StackLaws.
Local Abbreviation versions := ts_stack_version_count.

Lemma push_parser_versions (self self' : Parser) version tree state :
  ts_parser__push self version tree state = Some self' ->
  versions (stack self') = versions (stack self).
Proof.
  unfold ts_parser__push.
  destruct (ts_stack_push _ _ _ _ _) as [s|] eqn:Ep; intros E; inversion E.
  cbn. eapply push_versions; eauto.
Qed.

Lemma push_trees_versions trees : forall (self self' : Parser) version state,
  push_trees self version trees state = Some self' ->
  versions (stack self') = versions (stack self).
Proof.
  induction trees as [|t rest IH]; cbn; intros self self' version state E.
  - inversion E; reflexivity.
  - destruct (ts_parser__push self version t state) as [self1|] eqn:E1;
      [| discriminate].
    rewrite (IH _ _ _ _ E). eapply push_parser_versions; eassumption.
Qed.

Lemma reduce_push_parent_versions (self self' : Parser) symbol extra fragile
    parent slice node :
  reduce_push_parent self symbol extra fragile parent slice =
    Ret (Some (self', node)) ->
  versions (stack self') = versions (stack self).
Proof.
  unfold reduce_push_parent.
  destruct (if extra then _ else _) as [[final new_state] | | |];
    cbn [bind]; try discriminate.
  destruct (ts_parser__push self _ final new_state) as [self1|] eqn:E1;
    [| discriminate].
  destruct (push_trees self1 _ _ _) as [self2|] eqn:E2; [| discriminate].
  intros E. inversion E; subst.
  rewrite (push_trees_versions _ _ _ _ _ E2).
  eapply push_parser_versions; eassumption.
Qed.

Lemma reduce_slices_versions rest :
  forall (self self' : Parser) symbol metadata extra fragile parent slice
         built built' ok,
    reduce_slices self symbol metadata extra fragile parent slice rest built =
      Ret (ok, self', built') ->
    versions (stack self') = versions (stack self).
Proof.
  induction rest as [|next rest IH];
    intros self self' symbol metadata extra fragile parent slice built built'
           ok E; cbn [reduce_slices] in E.
  - destruct (reduce_push_parent self symbol extra fragile parent slice)
      as [[[self1 node]|] | | |] eqn:Ep; cbn [bind] in E; try discriminate;
      inversion E; subst; auto.
    eapply reduce_push_parent_versions; eassumption.
  - destruct (slice_version next =? slice_version slice)%nat.
    + destruct (ts_parser__switch_children self parent _)
        as [[b parent'] self1] eqn:Es.
      apply switch_children_stack in Es. rewrite <- Es.
      destruct b; eapply IH; eassumption.
    + destruct (reduce_push_parent self symbol extra fragile parent slice)
        as [[[self1 node]|] | | |] eqn:Ep; cbn [bind] in E; try discriminate.
      * apply reduce_push_parent_versions in Ep. rewrite <- Ep.
        destruct (ts_tree_make_node symbol _ metadata) as [parent'|].
        -- eapply IH; eassumption.
        -- inversion E; subst. reflexivity.
      * inversion E; subst. reflexivity.
Qed.

Lemma reduce_push_parent_node (self self' : Parser) symbol extra fragile
    parent slice node :
  reduce_push_parent self symbol extra fragile parent slice =
    Ret (Some (self', node)) ->
  rn_stack node = stack self.
Proof.
  unfold reduce_push_parent.
  destruct (if extra then _ else _) as [[final new_state] | | |];
    cbn [bind]; try discriminate.
  destruct (ts_parser__push self _ final new_state) as [self1|];
    [| discriminate].
  destruct (push_trees self1 _ _ _) as [self2|]; [| discriminate].
  intros E. inversion E; subst. reflexivity.
Qed.

Lemma reduce_slices_node_versions rest :
  forall (self self' : Parser) symbol metadata extra fragile parent slice
         built built' ok (n : nat),
    reduce_slices self symbol metadata extra fragile parent slice rest built =
      Ret (ok, self', built') ->
    versions (stack self) = n ->
    Forall (fun node => versions (rn_stack node) = n) built ->
    Forall (fun node => versions (rn_stack node) = n) built'.
Proof.
  induction rest as [|next rest IH];
    intros self self' symbol metadata extra fragile parent slice built built'
           ok n E Hn Hbuilt; cbn [reduce_slices] in E.
  - destruct (reduce_push_parent self symbol extra fragile parent slice)
      as [[[self1 node]|] | | |] eqn:Ep; cbn [bind] in E; try discriminate;
      inversion E; subst; auto.
    apply Forall_app. split; [exact Hbuilt |].
    constructor; [| constructor].
    rewrite (reduce_push_parent_node _ _ _ _ _ _ _ _ Ep). reflexivity.
  - destruct (slice_version next =? slice_version slice)%nat.
    + destruct (ts_parser__switch_children self parent _)
        as [[b parent'] self1] eqn:Es.
      apply switch_children_stack in Es.
      destruct b; eapply IH; try eassumption; rewrite Es; exact Hn.
    + destruct (reduce_push_parent self symbol extra fragile parent slice)
        as [[[self1 node]|] | | |] eqn:Ep; cbn [bind] in E; try discriminate.
      * assert (Hall : Forall (fun node => versions (rn_stack node) = n)
                              (built ++ [node])).
        { apply Forall_app. split; [exact Hbuilt |].
          constructor; [| constructor].
          rewrite (reduce_push_parent_node _ _ _ _ _ _ _ _ Ep). exact Hn. }
        apply reduce_push_parent_versions in Ep.
        destruct (ts_tree_make_node symbol _ metadata) as [parent'|].
        -- eapply IH; try eassumption. rewrite Ep. exact Hn.
        -- inversion E; subst. exact Hall.
      * inversion E; subst. exact Hbuilt.
Qed.

End ReduceVersions.

Local Abbreviation versions := ts_stack_version_count.


End ReduceFacts.

(** ** Error repair: theorems *)

Lemma shifts_to_none_counted l state trees state' :
  shifts_to l state trees state' 0 -> state' = state.
Proof.
  intros Hs. remember 0%nat as n eqn:Hn.
  induction Hs; auto; discriminate.
Qed.

Lemma shift_trees_above_iff l trees : forall state state',
  shift_trees_above l state trees = Some state' <->
  exists n, shifts_to l state trees state' n.
Proof.
  induction trees as [|tree rest IH]; intros state state';
    cbn [shift_trees_above].
  - split.
    + intros E. inversion E. exists 0%nat. constructor.
    + intros [n Hs]. inversion Hs. reflexivity.
  - destruct (is_shift (ts_language_last_action l state (symbol tree))) eqn:Hshift;
      cbn [negb].
    + destruct (action_extra (ts_language_last_action l state (symbol tree))
                || extra tree) eqn:Hextra.
      * rewrite IH. split.
        -- intros [n Hs]. exists n. apply shifts_over; assumption.
        -- intros [n Hs]. inversion Hs; subst;
             [exists n; assumption | congruence].
      * rewrite IH. split.
        -- intros [n Hs]. exists (S n). apply shifts_tree; assumption.
        -- intros [n Hs]. inversion Hs; subst;
             [congruence | eexists; eassumption].
    + split; [discriminate |].
      intros [n Hs]. inversion Hs; subst; congruence.
Qed.

Lemma valid_repair_loop_past_goal l above sym goal look trees :
  forall state count,
    (goal <= count)%nat ->
    valid_repair_loop l above sym goal look state count trees = false.
Proof.
  induction trees as [|tree rest IH]; intros state count Hle;
    cbn [valid_repair_loop]; [reflexivity |].
  destruct (is_shift _); cbn [negb]; [| reflexivity].
  destruct (action_extra _ || extra tree); [apply IH; assumption |].
  destruct (Nat.eqb_spec (S count) goal); [lia |].
  apply IH. lia.
Qed.

(** A chain whose first tree is [tree], read at its first step. *)
Lemma shifts_to_cons_inv l state tree first state1 n :
  shifts_to l state (tree :: first) state1 n ->
  is_shift (ts_language_last_action l state (symbol tree)) = true /\
  ((action_extra (ts_language_last_action l state (symbol tree))
      || extra tree = true /\ shifts_to l state first state1 n) \/
   (action_extra (ts_language_last_action l state (symbol tree))
      || extra tree = false /\
    exists m, n = S m /\
      shifts_to l (data_to_state
                     (ts_language_last_action l state (symbol tree)))
                first state1 m)).
Proof.
  intros Hs. inversion Hs; subst; split; auto.
  right. split; [assumption |]. eexists; split; [reflexivity | eassumption].
Qed.

Lemma valid_repair_loop_iff l above sym look trees :
  forall state count needed,
    valid_repair_loop l above sym (count + S needed) look state count trees
      = true <->
    exists first rest state1 state2 n,
      trees = first ++ rest /\
      shifts_to l state first state1 (S needed) /\
      shifts_to l state1 above state2 n /\
      has_reduce_of l state2 look sym = true.
Proof.
  induction trees as [|tree rest IH]; intros state count needed;
    cbn [valid_repair_loop].
  - split; [discriminate |].
    intros (first & rest & s1 & s2 & n & Happ & Hs & _).
    destruct first; [inversion Hs | discriminate].
  - assert (Hhead : forall first rest' s1,
              tree :: rest = first ++ rest' ->
              shifts_to l state first s1 (S needed) ->
              exists first', first = tree :: first' /\ rest = first' ++ rest').
    { intros first rest' s1 Happ Hs.
      destruct first as [|t first]; [inversion Hs |].
      inversion Happ; subst. eauto. }
    destruct (is_shift (ts_language_last_action l state (symbol tree)))
      eqn:Hshift; cbn [negb].
    2:{ split; [discriminate |].
        intros (first & rest' & s1 & s2 & n & Happ & Hs & _).
        destruct (Hhead _ _ _ Happ Hs) as (first' & -> & _).
        apply shifts_to_cons_inv in Hs. destruct Hs as [Hs _]. congruence. }
    destruct (action_extra (ts_language_last_action l state (symbol tree))
              || extra tree) eqn:Hextra.
    + rewrite IH. split.
      * intros (first & rest' & s1 & s2 & n & Happ & Hs & Hab & Hr).
        exists (tree :: first), rest', s1, s2, n. subst rest.
        repeat split; auto. apply shifts_over; assumption.
      * intros (first & rest' & s1 & s2 & n & Happ & Hs & Hab & Hr).
        destruct (Hhead _ _ _ Happ Hs) as (first' & -> & ->).
        apply shifts_to_cons_inv in Hs.
        destruct Hs as [_ [[_ Hs] | [Hx _]]]; [| congruence].
        exists first', rest', s1, s2, n. repeat split; auto.
    + destruct (Nat.eqb_spec (S count) (count + S needed)) as [Heq | Hne].
      * assert (needed = 0)%nat by lia. subst needed.
        assert (Hback : (exists first rest' s1 s2 n,
                   tree :: rest = first ++ rest' /\
                   shifts_to l state first s1 1 /\
                   shifts_to l s1 above s2 n /\
                   has_reduce_of l s2 look sym = true) ->
                 exists s2,
                   shift_trees_above l
                     (data_to_state
                        (ts_language_last_action l state (symbol tree)))
                     above = Some s2 /\
                   has_reduce_of l s2 look sym = true).
        { intros (first & rest' & s1 & s2 & n & Happ & Hs & Hab & Hr).
          destruct (Hhead _ _ _ Happ Hs) as (first' & -> & _).
          apply shifts_to_cons_inv in Hs.
          destruct Hs as [_ [[Hx _] | [_ (m & Hm & Hs)]]]; [congruence |].
          inversion Hm; subst m.
          apply shifts_to_none_counted in Hs. subst s1.
          exists s2. split; [| assumption].
          apply shift_trees_above_iff. eauto. }
        destruct (shift_trees_above l _ above) as [state2|] eqn:Habove.
        -- destruct (has_reduce_of l state2 look sym) eqn:Hred.
           ++ split; [intros _ | reflexivity].
              apply shift_trees_above_iff in Habove. destruct Habove as [n Hab].
              exists [tree], rest,
                (data_to_state (ts_language_last_action l state (symbol tree))),
                state2, n.
              repeat split; auto.
              apply shifts_tree; [assumption | assumption | constructor].
           ++ rewrite valid_repair_loop_past_goal by lia.
              split; [discriminate |].
              intros Hx. destruct (Hback Hx) as (s2 & E & Hr).
              inversion E; subst. congruence.
        -- split; [discriminate |].
           intros Hx. destruct (Hback Hx) as (s2 & E & _). discriminate.
      * destruct needed as [|needed]; [lia |].
        replace (count + S (S needed))%nat with (S count + S needed)%nat by lia.
        rewrite IH. split.
        -- intros (first & rest' & s1 & s2 & n & Happ & Hs & Hab & Hr).
           exists (tree :: first), rest', s1, s2, n. subst rest.
           repeat split; auto. apply shifts_tree; assumption.
        -- intros (first & rest' & s1 & s2 & n & Happ & Hs & Hab & Hr).
           destruct (Hhead _ _ _ Happ Hs) as (first' & -> & ->).
           apply shifts_to_cons_inv in Hs.
           destruct Hs as [_ [[Hx _] | [_ (m & Hm & Hs)]]]; [congruence |].
           inversion Hm; subst m.
           exists first', rest', s1, s2, n. repeat split; auto.
Qed.

(** C2, as the code has it.  [ts_parser__is_valid_repair] accepts a
    candidate exactly when the simulated shifts of the first
    [goal_count_below] counted trees below the error, from the bottom
    one upwards, followed by the shifts of the trees above the error,
    reach a state whose actions for the lookahead symbol contain a
    reduce action of the candidate's symbol.  The child count of that
    reduce action is not looked at.  A candidate that asks for no tree
    below the error is never accepted. *)
Theorem is_valid_repair_iff (l : TSLanguage)
    (trees_below trees_above : list TSTree) (start_state : TSStateId)
    (goal_symbol : TSSymbol) (lookahead_symbol : TSSymbol) :
  (forall goal_count_below : nat,
    ts_parser__is_valid_repair l trees_below trees_above start_state
      goal_symbol (S goal_count_below) lookahead_symbol = true <->
    repair_chain l trees_below trees_above start_state goal_symbol
                 (S goal_count_below) lookahead_symbol) /\
  ts_parser__is_valid_repair l trees_below trees_above start_state
    goal_symbol 0 lookahead_symbol = false.
Proof.
  unfold ts_parser__is_valid_repair, repair_chain. split.
  - intros goal. apply (valid_repair_loop_iff l trees_above goal_symbol
                          lookahead_symbol (rev trees_below) start_state 0 goal).
  - apply valid_repair_loop_past_goal. lia.
Qed.

Lemma same_or_fewer_refl s :
  found_repair s = true -> same_or_fewer_skipped s s.
Proof. intros Hf. split; auto. Qed.

Lemma same_or_fewer_trans a b c :
  same_or_fewer_skipped a b -> same_or_fewer_skipped b c ->
  same_or_fewer_skipped a c.
Proof.
  intros [_ Hab] [Hc Hbc]. split; [exact Hc |].
  destruct Hab as [Hab | (Ea & Eb & Ec)], Hbc as [Hbc | (Fa & Fb & Fc)].
  - left. lia.
  - left. lia.
  - left. lia.
  - right. repeat split; congruence.
Qed.

Lemma try_repair_same_or_fewer state trees tree_count session repair :
  found_repair session = true ->
  same_or_fewer_skipped session
    (snd (fst (try_repair state trees tree_count session repair))).
Proof.
  intros Hf. unfold try_repair.
  destruct (tree_count <? ra_count repair)%nat;
    [apply same_or_fewer_refl; exact Hf |].
  rewrite Hf. cbn [andb].
  destruct (Nat.leb_spec (best_repair_skip_count session)
                         (tree_count - ra_count repair)) as [Hle | Hlt];
    [apply same_or_fewer_refl; exact Hf |].
  destruct (negb (is_shift _)); [apply same_or_fewer_refl; exact Hf |].
  destruct (negb (ts_language_has_action _ _ _));
    [apply same_or_fewer_refl; exact Hf |].
  destruct (ts_parser__is_valid_repair _ _ _ _ _ _ _);
    [| apply same_or_fewer_refl; exact Hf].
  cbn. split; [reflexivity | left; exact Hlt].
Qed.

Lemma repair_candidates_session state trees tree_count repairs :
  forall session pop earlier,
    In earlier (session :: candidates_trace state trees tree_count repairs
                             session) ->
    found_repair earlier = true ->
    same_or_fewer_skipped earlier
      (snd (fst (repair_candidates state trees tree_count repairs session pop))).
Proof.
  induction repairs as [|repair rest IH]; intros session pop earlier Hin Hf.
  - cbn in Hin. destruct Hin as [<- | []]. cbn.
    apply same_or_fewer_refl; exact Hf.
  - cbn [repair_candidates candidates_trace] in *.
    pose proof (try_repair_same_or_fewer state trees tree_count session repair)
      as Hstep.
    destruct (try_repair state trees tree_count session repair)
      as [[erased session1] popped] eqn:Etry.
    cbn [fst snd] in *.
    specialize (IH session1 (pop || popped)).
    destruct (repair_candidates state trees tree_count rest session1
                                (pop || popped)) as [[kept session2] pop2]
      eqn:Erest.
    cbn [fst snd] in *.
    destruct Hin as [<- | Hin].
    + specialize (Hstep Hf).
      eapply same_or_fewer_trans; [exact Hstep |].
      apply IH; [left; reflexivity | apply Hstep].
    + apply IH; assumption.
Qed.

Lemma callback_at_session session f :
  callback_at session f =
  let r := repair_candidates (frame_state f) (frame_trees f)
             (frame_tree_count f) (session_repairs session) session false in
  set_session_repairs (snd (fst r)) (fst (fst r)).
Proof.
  unfold callback_at, ts_parser__error_repair_callback.
  destruct (repair_candidates _ _ _ _ _ _) as [[kept s] pop].
  reflexivity.
Qed.

Lemma same_or_fewer_set_repairs earlier s repairs :
  same_or_fewer_skipped earlier s ->
  same_or_fewer_skipped earlier (set_session_repairs s repairs).
Proof. intros H. exact H. Qed.


Lemma try_repair_records_only_valid state trees tree_count session repair
    erased session' :
  try_repair state trees tree_count session repair = (erased, session', true) ->
  ts_parser__is_valid_repair (session_language session) trees
    (trees_above_error session) state (ra_symbol repair) (ra_count repair)
    (lookahead_symbol session) = true /\
  best_repair session' = repair /\
  best_repair_skip_count session' = (tree_count - ra_count repair)%nat.
Proof.
  unfold try_repair.
  destruct (tree_count <? ra_count repair)%nat; [discriminate |].
  destruct (found_repair session && _); [discriminate |].
  destruct (negb (is_shift _)); [discriminate |].
  destruct (negb (ts_language_has_action _ _ _)); [discriminate |].
  destruct (ts_parser__is_valid_repair _ _ _ _ _ _ _); [| discriminate].
  intros E. inversion E; subst. cbn. auto.
Qed.

(** ** The main loop: theorems *)

Lemma version_is_done_some (new_position max_position : Z)
    (version : StackVersion) (m : Z) :
  version_is_done new_position max_position version = Some m <->
  (max_position < new_position /\ m = new_position) \/
  (new_position = max_position /\ (0 < version)%nat /\ m = max_position).
Proof.
  unfold version_is_done.
  destruct (Z.ltb_spec max_position new_position);
    [| destruct (Z.eqb_spec new_position max_position);
       destruct (Nat.ltb_spec 0 version); cbn [andb]];
    (split;
     [ intros E; inversion E; subst; lia
     | intros [[? ?] | (? & ? & ?)]; subst;
       first [reflexivity | exfalso; lia] ]).
Qed.

Lemma version_is_done_none (new_position max_position : Z)
    (version : StackVersion) :
  version_is_done new_position max_position version = None <->
  new_position < max_position \/
  (new_position = max_position /\ version = 0%nat).
Proof.
  unfold version_is_done.
  destruct (Z.ltb_spec max_position new_position);
    [| destruct (Z.eqb_spec new_position max_position);
       destruct (Nat.ltb_spec 0 version); cbn [andb]];
    (split;
     [ intros E; first [discriminate E | lia]
     | intros Hx; first [reflexivity | exfalso; lia] ]).
Qed.

Section MainLoopFacts.
Context `{Builtins} `{TreeOps}.
Context {Stack Lexer : Type} `{StackOps Stack} `{LexerOps Lexer}.
Local Abbreviation Parser := (TSParser Stack Lexer).
Local Abbreviation Walk := (Walk Stack Lexer).
Variable get_lookahead :
  Parser -> StackVersion -> ReusableNode ->
  option TSTree * Parser * ReusableNode.
Variable consume_lookahead :
  Parser -> StackVersion -> TSTree -> Run (ParseActionResult * Parser * TSTree).

Local Abbreviation walk_version :=
  (process_version get_lookahead consume_lookahead).

(** While the version is behind [max_position], or level with it as
    version 0, one more lookahead is consumed before anything else. *)
Lemma process_version_consumes (fuel : nat) (w : Walk)
    (version : StackVersion) (lookahead : TSTree) (self : Parser)
    (node : ReusableNode) :
  version_is_done (walk_top_chars w version) (walk_max_position w) version
    = None ->
  next_lookahead get_lookahead w version (walk_top_chars w version)
                 (walk_position w) = Some (lookahead, self, node) ->
  walk_version (S fuel) w version =
  ('(result, self, lookahead) <- consume_lookahead self version lookahead ;;
   let w' := mkWalk self (walk_max_position w) (Some lookahead)
                    (walk_top_chars w version) (walk_position w) node in
   match result with
   | ParseActionFailed => Ret (ExitError, w')
   | ParseActionRemoved => Ret (ExitRemoved, w')
   | ParseActionUpdated => walk_version fuel w' version
   end).
Proof.
  intros Hdone Hnext. cbn [process_version].
  unfold walk_top_chars in *. rewrite Hdone, Hnext. reflexivity.
Qed.


End MainLoopFacts.

(** ** The error handler: theorems *)

Lemma error_actions_of_symbol_shift actions : forall has_shift reduces,
  fst (error_actions_of_symbol actions has_shift reduces) =
  has_shift || existsb shifts_or_recovers actions.
Proof.
  induction actions as [|a rest IH]; intros has_shift reduces;
    cbn [error_actions_of_symbol existsb].
  - rewrite orb_false_r. reflexivity.
  - unfold shifts_or_recovers at 1.
    destruct (action_extra a); cbn [negb andb orb]; [apply IH |].
    destruct (action_type a); cbn [action_type_eqb orb];
      try (rewrite IH; reflexivity).
    + rewrite IH. cbn. rewrite orb_true_r. reflexivity.
    + destruct (0 <? data_child_count a)%nat; rewrite IH; reflexivity.
    + rewrite IH. cbn. rewrite orb_true_r. reflexivity.
Qed.

Lemma error_actions_of_state_shift l state symbols :
  forall has_shift reduces,
    fst (error_actions_of_state l state symbols has_shift reduces) =
    has_shift ||
    existsb (fun sym => existsb shifts_or_recovers
                                (ts_language_actions l state (Z.of_nat sym)))
            symbols.
Proof.
  induction symbols as [|sym rest IH]; intros has_shift reduces;
    cbn [error_actions_of_state existsb].
  - rewrite orb_false_r. reflexivity.
  - pose proof (error_actions_of_symbol_shift
                  (ts_language_actions l state (Z.of_nat sym))
                  has_shift reduces) as Hsym.
    destruct (error_actions_of_symbol _ has_shift reduces) as [hs rs].
    cbn [fst] in Hsym. rewrite IH, Hsym, orb_assoc. reflexivity.
Qed.

Section HandleErrorFacts.
Context `{Builtins} `{TreeOps}.
Context {Stack Lexer : Type} `{StackOps Stack}.
Local Abbreviation Parser := (TSParser Stack Lexer).
Local Abbreviation versions := ts_stack_version_count.

Lemma merge_error_versions_merged fuel : forall s version entry_count s',
  merge_error_versions fuel s version entry_count = Ret (Some s') ->
  markers_merged version entry_count s s'.
Proof.
  induction fuel as [|fuel IH]; intros s version entry_count s' E;
    cbn [merge_error_versions] in E;
    destruct (Nat.ltb_spec entry_count (versions s)) as [Hlt | Hge];
    try discriminate;
    try (inversion E; subst; apply markers_done; assumption).
  destruct (ts_stack_push s entry_count None false ts_parse_state_error)
    as [pushed|] eqn:Ep; [| discriminate].
  destruct (ts_stack_merge pushed version entry_count) as [[|] merged] eqn:Em;
    [| discriminate].
  eapply markers_step; eauto.
Qed.

Lemma markers_merged_count version entry_count s s' :
  markers_merged version entry_count s s' ->
  (versions s' <= entry_count)%nat.
Proof. induction 1; assumption. Qed.

Hypothesis laws : StackLaws.

(** The loop of lines 739-743 ends within as many rounds as there are
    versions beyond the number on entry. *)
Lemma merge_error_versions_fuel fuel : forall s version entry_count,
  (versions s - entry_count <= fuel)%nat ->
  merge_error_versions fuel s version entry_count <> OutOfFuel.
Proof.
  induction fuel as [|fuel IH]; intros s version entry_count Hfuel;
    cbn [merge_error_versions];
    destruct (Nat.ltb_spec entry_count (versions s)) as [Hlt | Hge];
    try discriminate; try lia.
  destruct (ts_stack_push s entry_count None false ts_parse_state_error)
    as [pushed|] eqn:Ep; [| discriminate].
  destruct (ts_stack_merge pushed version entry_count) as [[|] merged] eqn:Em;
    [| discriminate].
  apply IH.
  pose proof (push_versions laws _ _ _ _ _ _ Ep).
  pose proof (merge_versions laws _ _ _ _ Em). lia.
Qed.

Lemma markers_merged_exact version entry_count s s' :
  markers_merged version entry_count s s' ->
  (entry_count <= versions s)%nat ->
  versions s' = entry_count.
Proof.
  induction 1 as [s Hle | s pushed merged s' Hlt Ep Em _ IH]; intros Hge.
  - lia.
  - apply IH.
    pose proof (push_versions laws _ _ _ _ _ _ Ep).
    pose proof (merge_versions laws _ _ _ _ Em). lia.
Qed.

Lemma markers_merged_top_state version entry_count s s' :
  markers_merged version entry_count s s' ->
  (version < entry_count)%nat ->
  ts_stack_top_state s' version = ts_stack_top_state s version.
Proof.
  induction 1 as [s Hle | s pushed merged s' Hlt Ep Em _ IH]; intros Hv.
  - reflexivity.
  - rewrite IH by assumption.
    rewrite (merge_top_state laws _ _ _ _ Em Hv).
    apply (push_other_top_state laws _ _ _ _ _ _ _ Ep). lia.
Qed.

(** A reduction that succeeds leaves at least one version more; one
    that stops at an error leaves its slice under an added version. *)
Lemma reduce_versions (self self' : Parser) version symbol count extra fragile
    reduction nodes :
  ts_parser__reduce self version symbol count extra fragile =
    Ret (reduction, self', nodes) ->
  match red_status reduction with
  | ReduceFailed => True
  | ReduceSucceeded => (versions (stack self) < versions (stack self'))%nat
  | ReduceStoppedAtError =>
    forall slice, red_slice reduction = Some slice ->
      (versions (stack self) <= slice_version slice < versions (stack self'))%nat
  end.
Proof.
  unfold ts_parser__reduce.
  destruct (ts_stack_pop_count (stack self) version count) as [pop s] eqn:Epop.
  pose proof (pop_count_versions laws _ _ _ _ _ Epop) as [Hle Hslices].
  pose proof (pop_count_slice laws _ _ _ _ _ Epop) as Hsome.
  destruct (pop_status pop) eqn:Estatus.
  - intros E. inversion E; subst. exact I.
  - intros E. inversion E; subst. cbn. intros slice Hs.
    apply Hslices. destruct (pop_slices pop); [discriminate |].
    inversion Hs; subst. left. reflexivity.
  - specialize (Hsome eq_refl).
    destruct (pop_slices pop) as [|slice rest] eqn:Eslices; [congruence |].
    assert (Hadded : (versions (stack self) < versions s)%nat).
    { specialize (Hslices slice (or_introl eq_refl)). lia. }
    destruct (ts_tree_make_node symbol _ _) as [parent|].
    + destruct (reduce_slices (set_stack self s) symbol _ extra fragile
                  parent slice rest [])
        as [[[ok self1] built] | | |] eqn:Er; cbn [bind]; try discriminate.
      apply (reduce_slices_versions laws) in Er. cbn [stack set_stack] in Er.
      destruct ok; intros E; inversion E; subst; [| exact I].
      cbn [red_status stack set_stack].
      pose proof (merge_from_versions laws (stack self1)
                    (versions (stack self))). lia.
    + cbn [bind]. intros E. inversion E; subst. exact I.
Qed.

Lemma handle_error_reduce_versions actions :
  forall (self self' : Parser) version did_reduce did_reduce',
    handle_error_reduce self version actions did_reduce =
      Ret (Some (self', did_reduce')) ->
    (versions (stack self) <= versions (stack self'))%nat /\
    (did_reduce' = true ->
     did_reduce = true \/ (versions (stack self) < versions (stack self'))%nat).
Proof.
  induction actions as [|action rest IH];
    intros self self' version did_reduce did_reduce' E;
    cbn [handle_error_reduce] in E.
  - inversion E; subst. split; [lia | auto].
  - destruct (ts_parser__reduce self version (ra_symbol action)
                (ra_count action) false true)
      as [[[reduction self1] nodes] | | |] eqn:Er; cbn [bind] in E;
      try discriminate.
    pose proof (reduce_versions _ _ _ _ _ _ _ _ _ Er) as Hr.
    destruct (red_status reduction).
    + discriminate.
    + apply IH in E. destruct E as [Hle Hdid]. split; [lia |].
      intros _. right. lia.
    + destruct (red_slice reduction) as [slice|]; [| discriminate].
      specialize (Hr slice eq_refl).
      apply IH in E. cbn [stack set_stack] in E. destruct E as [Hle Hdid].
      pose proof (remove_versions laws (stack self1) (slice_version slice))
        as Hrm.
      split; [lia |]. intros Ht. destruct (Hdid Ht); [auto | right; lia].
Qed.

(** C8, as the code has it, for a stack that keeps [StackLaws].  When
    the error handler returns true, the reductions of the state's reduce
    actions have been tried on [version]; the first version added is
    renumbered onto [version] exactly when one of the reductions
    succeeded and the state has, for no symbol, a shift or recover
    action that is not extra; [version] then got the NULL marker in the
    error state, and every version beyond the number on entry got the
    marker and was merged into [version].  The stack ends with as many
    versions as on entry and with [version] in the error state. *)
Theorem handle_error_merges_into_error_version (fuel : nat)
    (self self' : Parser) (version : StackVersion) (state : TSStateId)
    (lookahead : TSTree) :
  (version < versions (stack self))%nat ->
  ts_parser__handle_error fuel self version state lookahead = Ret (Some self') ->
  let entry_count := versions (stack self) in
  let reduce_actions :=
    snd (error_actions_of_state (language self) state
           (seq 0 (symbol_count (language self))) false []) in
  exists (reduced : Parser) (did_reduce : bool) (marked : Stack),
    handle_error_reduce (set_reduce_actions self reduce_actions) version
                        reduce_actions false = Ret (Some (reduced, did_reduce)) /\
    ts_stack_push
      (if did_reduce && negb (has_shift_or_recover (language self) state)
       then ts_stack_renumber_version (stack reduced) entry_count version
       else stack reduced)
      version None false ts_parse_state_error = Some marked /\
    markers_merged version entry_count marked (stack self') /\
    versions (stack self') = entry_count /\
    ts_stack_top_state (stack self') version = ts_parse_state_error.
Proof.
  intros Hversion E entry_count reduce_actions.
  unfold ts_parser__handle_error in E.
  pose proof (error_actions_of_state_shift (language self) state
                (seq 0 (symbol_count (language self))) false []) as Hshift.
  fold entry_count in E. subst reduce_actions.
  destruct (error_actions_of_state (language self) state _ false [])
    as [has_shift actions] eqn:Eactions.
  cbn [fst snd orb] in *. fold (has_shift_or_recover (language self) state) in Hshift.
  destruct (handle_error_reduce (set_reduce_actions self actions) version
              actions false) as [[[reduced did_reduce]|] | | |] eqn:Ered;
    cbn [bind] in E; try discriminate.
  unfold mark_error_version in E. rewrite Hshift in E.
  destruct (ts_stack_push _ version None false ts_parse_state_error)
    as [marked|] eqn:Emark; [| discriminate].
  destruct (merge_error_versions fuel marked version entry_count)
    as [[merged|] | | |] eqn:Emerge; cbn [bind] in E; try discriminate.
  inversion E; subst self'. cbn [stack set_stack].
  exists reduced, did_reduce, marked.
  apply merge_error_versions_merged in Emerge.
  apply handle_error_reduce_versions in Ered.
  cbn [stack set_reduce_actions] in Ered. fold entry_count in Ered.
  destruct Ered as [Hle Hdid].
  assert (Hmarked : (entry_count <= versions marked)%nat).
  { rewrite (push_versions laws _ _ _ _ _ _ Emark).
    destruct (did_reduce && negb (has_shift_or_recover (language self) state))
      eqn:Hren; [| exact Hle].
    apply andb_prop in Hren. destruct Hren as [Hd _].
    destruct (Hdid Hd) as [Hx | Hlt]; [discriminate |].
    pose proof (renumber_versions laws (stack reduced) entry_count version
                  Hversion Hlt). lia. }
  repeat split; auto.
  - eapply markers_merged_exact; eassumption.
  - rewrite (markers_merged_top_state _ _ _ _ Emerge Hversion).
    eapply push_top_state; eauto.
Qed.

End HandleErrorFacts.

(** ** Accepting: theorems *)

Lemma find_root_rightmost trees : forall j r,
  find_root trees j = Some r ->
  (r < j)%nat /\
  (exists root, nth_error trees r = Some root /\ extra root = false) /\
  forall k t, (r < k < j)%nat -> nth_error trees k = Some t -> extra t = true.
Proof.
  induction j as [|j IH]; intros r E; cbn [find_root] in E; [discriminate |].
  destruct (nth_error trees j) as [t|] eqn:Ej.
  - destruct (extra t) eqn:Et; cbn [negb] in E.
    + apply IH in E. destruct E as (Hlt & Hroot & Hextra).
      split; [lia | split; [exact Hroot |]].
      intros k t' Hk Hn. destruct (Nat.eq_dec k j) as [-> | Hne].
      * congruence.
      * apply (Hextra k); [lia | assumption].
    + inversion E; subst. split; [lia | split; [eauto |]]. intros; lia.
  - apply IH in E. destruct E as (Hlt & Hroot & Hextra).
    split; [lia | split; [exact Hroot |]].
    intros k t' Hk Hn. destruct (Nat.eq_dec k j) as [-> | Hne].
    + congruence.
    + apply (Hextra k); [lia | assumption].
Qed.

Lemma firstn_succ_nth {A : Type} (l : list A) k x :
  nth_error l k = Some x -> firstn (S k) l = firstn k l ++ [x].
Proof.
  revert l. induction k as [|k IH]; intros [|y l] E; cbn in *;
    try discriminate.
  - inversion E; reflexivity.
  - rewrite (IH l E). reflexivity.
Qed.

Lemma essential_before_succ trees k t :
  nth_error trees k = Some t ->
  essential_before trees (S k) =
  (essential_before trees k + if extra t then 0 else 1)%nat.
Proof.
  intros E. unfold essential_before, ts_tree_array_essential_count.
  rewrite (firstn_succ_nth _ _ _ E), filter_app, length_app. cbn.
  destruct (extra t); reflexivity.
Qed.

(** What lines 659-661 add: for every one of the first [k0] children
    that is not extra, the size of the child at index [j]. *)
Lemma accept_error_size_adds (j : nat) (at_j : TSTree) : forall k0 root root',
  nth_error (children root) j = Some at_j ->
  accept_error_size root j k0 = Ret root' ->
  children root' = children root /\
  error_size root' mod SIZE_MODULUS =
  (error_size root +
   Z.of_nat (essential_before (children root) k0) * chars (size at_j))
    mod SIZE_MODULUS.
Proof.
  induction k0 as [|k IH]; intros root root' Hj E;
    cbn [accept_error_size] in E.
  - inversion E; subst. split; [reflexivity |].
    unfold essential_before. cbn. f_equal. lia.
  - destruct (nth_error (children root) k) as [child|] eqn:Ek;
      [| discriminate].
    rewrite (essential_before_succ _ _ _ Ek).
    destruct (extra child); cbn [negb] in E.
    + destruct (IH _ _ Hj E) as [Hc He]. split; [exact Hc |].
      rewrite He. f_equal. lia.
    + rewrite Hj in E.
      destruct (IH (set_error_size root
                      (size_add (error_size root) (chars (size at_j))))
                   root' Hj E) as [Hc He].
      cbn [children error_size set_error_size] in *.
      split; [exact Hc |]. rewrite He. unfold size_add.
      rewrite Zplus_mod_idemp_l. f_equal. lia.
Qed.

(** ** The reference stack keeps the laws *)

Lemma replace_nth_length {A : Type} (n : nat) (x : A) (l : list A) :
  length (replace_nth n x l) = length l.
Proof.
  revert n. induction l as [|y l IH]; intros [|n]; cbn; auto.
Qed.

Lemma remove_nth_length {A : Type} (n : nat) (l : list A) :
  (n < length l)%nat -> S (length (remove_nth n l)) = length l.
Proof.
  revert n. induction l as [|y l IH]; intros [|n] Hn; cbn in *; try lia.
  rewrite IH by lia. reflexivity.
Qed.

Lemma nth_replace_nth_same {A : Type} (n : nat) (x d : A) (l : list A) :
  (n < length l)%nat -> nth n (replace_nth n x l) d = x.
Proof.
  revert n. induction l as [|y l IH]; intros [|n] Hn; cbn in *; try lia.
  - reflexivity.
  - apply IH. lia.
Qed.

Lemma nth_replace_nth_other {A : Type} (n m : nat) (x d : A) (l : list A) :
  m <> n -> nth m (replace_nth n x l) d = nth m l d.
Proof.
  revert n m. induction l as [|y l IH]; intros [|n] [|m] Hne; cbn;
    try reflexivity; try congruence.
  apply IH. congruence.
Qed.

Lemma nth_remove_nth_before {A : Type} (n m : nat) (d : A) (l : list A) :
  (m < n)%nat -> nth m (remove_nth n l) d = nth m l d.
Proof.
  revert n m. induction l as [|y l IH]; intros [|n] [|m] Hlt; cbn;
    try reflexivity; try lia.
  apply IH. lia.
Qed.

Lemma merge_heads_length hs : forall kept,
  (length kept <= length (merge_heads kept hs))%nat.
Proof.
  induction hs as [|h rest IH]; intros kept; cbn [merge_heads]; [lia |].
  destruct (existsb _ kept); [apply IH |].
  specialize (IH (kept ++ [h])). rewrite length_app in IH. cbn in IH. lia.
Qed.

Lemma merge_heads_keeps_one hs :
  hs <> [] -> (1 <= length (merge_heads [] hs))%nat.
Proof.
  destruct hs as [|h rest]; [congruence |]. intros _. cbn.
  pose proof (merge_heads_length rest [h]). cbn in *. lia.
Qed.

Lemma reference_pop_count_cases s v count pop s' :
  reference_pop_count s v count = (pop, s') ->
  (pop = mkPop StackPopFailed [] /\ s' = s) \/
  (exists status trees rest,
      status <> StackPopFailed /\
      pop = mkPop status [mkSlice trees (length s)] /\ s' = s ++ [rest]).
Proof.
  unfold reference_pop_count.
  destruct (v <? length s)%nat.
  - destruct (pop_count_walk (head_of s v) count 0 [])
      as [[status trees] rest].
    destruct status; intros E; inversion E; subst; auto;
      right; do 3 eexists; (split; [| split; reflexivity]); discriminate.
  - intros E. inversion E. auto.
Qed.

Lemma reference_stack_laws :
  @StackLaws ReferenceStack reference_stack_ops.
Proof.
  constructor; cbn.
  - intros s v t pending state s'. unfold reference_push.
    destruct (v <? length s)%nat; [| discriminate].
    intros E. inversion E. apply replace_nth_length.
  - intros s v t pending state s'. unfold reference_push.
    destruct (Nat.ltb_spec v (length s)); [| discriminate].
    intros E. inversion E. unfold head_of.
    rewrite nth_replace_nth_same by assumption. reflexivity.
  - intros s v t pending state s' v'. unfold reference_push.
    destruct (v <? length s)%nat; [| discriminate].
    intros E Hne. inversion E. unfold head_of.
    rewrite nth_replace_nth_other by assumption. reflexivity.
  - intros s v1 v2 s'. unfold reference_merge.
    destruct (Nat.ltb_spec v1 (length s)); cbn [andb]; [| discriminate].
    destruct (Nat.ltb_spec v2 (length s)); cbn [andb]; [| discriminate].
    destruct (negb (v1 =? v2)%nat && can_merge _ _); [| discriminate].
    intros E. inversion E. apply remove_nth_length. assumption.
  - intros s v1 v2 s'. unfold reference_merge.
    destruct ((v1 <? length s)%nat && (v2 <? length s)%nat &&
              negb (v1 =? v2)%nat && can_merge _ _); [| discriminate].
    intros E Hlt. inversion E. unfold head_of.
    rewrite nth_remove_nth_before by assumption. reflexivity.
  - intros s v Hv. apply remove_nth_length. assumption.
  - intros s v1 v2 Hlt Hv. unfold reference_renumber.
    apply eq_trans with (length (replace_nth v2 (head_of s v1) s)).
    + apply remove_nth_length. rewrite replace_nth_length. assumption.
    + apply replace_nth_length.
  - intros s start. unfold reference_merge_from.
    rewrite length_app, length_firstn.
    destruct (Nat.le_gt_cases (length s) start) as [Hle | Hgt].
    + rewrite skipn_all2 by assumption. cbn. lia.
    + assert (Hne : skipn start s <> []).
      { intros Hx. apply (f_equal (@length _)) in Hx.
        rewrite length_skipn in Hx. cbn in Hx. lia. }
      pose proof (merge_heads_keeps_one _ Hne). lia.
  - intros s v count pop s' E.
    apply reference_pop_count_cases in E.
    destruct E as [[-> ->] | (status & trees & rest & _ & -> & ->)]; cbn.
    + split; [lia | intros slice []].
    + rewrite length_app. cbn. split; [lia |].
      intros slice [<- | []]. cbn. lia.
  - intros s v count pop s' E Hstatus.
    apply reference_pop_count_cases in E.
    destruct E as [[-> ->] | (status & trees & rest & _ & -> & ->)]; cbn in *;
      [discriminate | discriminate].
Qed.

(** ** The reference comparison and the reference iteration *)

Section TreeInduction.
Variable P : TSTree -> Prop.
Hypothesis step : forall t, Forall P (children t) -> P t.

Fixpoint tree_children_ind (t : TSTree) : P t :=
  step t
    ((fix all (cs : list TSTree) : Forall P cs :=
        match cs with
        | [] => Forall_nil P
        | c :: rest => Forall_cons c (tree_children_ind c) (all rest)
        end) (children t)).

End TreeInduction.

(** The reference comparison puts [right] before [left] exactly when it
    puts [left] after [right]. *)
Lemma reference_compare_antisym (left right : TSTree) :
  reference_compare right left = - reference_compare left right.
Proof.
  revert right. induction left as [left IH] using tree_children_ind.
  intros right. destruct left as [sl cl ? ? ? ? ? ? ? ? ? ? ?].
  destruct right as [sr cr ? ? ? ? ? ? ? ? ? ? ?].
  cbn [reference_compare symbol children] in *.
  destruct (Z.ltb_spec sl sr), (Z.ltb_spec sr sl); try lia; try reflexivity.
  destruct (Nat.ltb_spec (length cl) (length cr)),
           (Nat.ltb_spec (length cr) (length cl)); try lia; try reflexivity.
  clear - IH. revert cr.
  induction IH as [|c cl Hc _ IHcl]; intros [|r cr]; try reflexivity.
  rewrite (Hc r).
  destruct (reference_compare c r); cbn [Z.opp]; [apply IHcl | |]; reflexivity.
Qed.

Lemma reference_compare_earlier (left right : TSTree) :
  reference_compare left right = 1 <-> reference_compare right left = -1.
Proof. rewrite (reference_compare_antisym left right). lia. Qed.

(** The reference iteration runs the callback at the frames of the
    version, from the top down: its session is that of a search. *)
Lemma iterate_walk_is_repair_search h :
  forall trees tree_count session s slices,
  exists frames,
    snd (fst (iterate_walk ts_parser__error_repair_callback h trees tree_count
                           session s slices))
    = repair_search frames session.
Proof.
  induction h as [|e rest IH]; intros trees tree_count session s slices.
  - exists [mkFrame (head_state []) trees tree_count true false].
    cbn [iterate_walk repair_search fold_left]. unfold callback_at.
    cbn [frame_state frame_trees frame_tree_count frame_is_done
         frame_is_pending].
    destruct (ts_parser__error_repair_callback session (head_state []) trees
                tree_count true false) as [action session'].
    destruct (iterate_pop action), (iterate_stop action); reflexivity.
  - cbn [iterate_walk].
    pose (f := mkFrame (head_state (e :: rest)) trees tree_count false false).
    assert (Hat : callback_at session f =
                  snd (ts_parser__error_repair_callback session
                         (head_state (e :: rest)) trees tree_count false false))
      by reflexivity.
    destruct (ts_parser__error_repair_callback session
                (head_state (e :: rest)) trees tree_count false false)
      as [action session'].
    cbn [snd] in Hat.
    destruct (if iterate_pop action then _ else _) as [slices' s'].
    destruct (iterate_stop action).
    + exists [f]. cbn [repair_search fold_left fst snd]. congruence.
    + destruct (entry_tree e) as [t|].
      * destruct (IH (trees ++ [t])
                     (if extra t then tree_count else S tree_count)
                     session' s' slices') as [frames Hframes].
        exists (f :: frames). rewrite Hframes.
        cbn [repair_search fold_left]. rewrite Hat. reflexivity.
      * destruct (IH trees tree_count session' s' slices') as [frames Hframes].
        exists (f :: frames). rewrite Hframes.
        cbn [repair_search fold_left]. rewrite Hat. reflexivity.
Qed.

(** ** Examples on the reference runtime *)

Section Examples.
#[local] Existing Instance reference_builtins.
#[local] Existing Instance reference_tree_ops.
#[local] Existing Instance reference_stack_ops.
#[local] Existing Instance reference_lexer_ops.

(** *** Reuse and lexing *)

(** C4 as the spec states it fails: on the empty stack, whose top state
    is 0, the last action for symbol 5 is a reduce action without
    [can_hide_split], and the leaf of symbol 5 can be reused. *)
Lemma can_reuse_with_reduce_action :
  ts_parser__can_reuse (parser_on reduce_only_language [[]] []) 0%nat (leaf 5)
    = true /\
  action_type
    (ts_language_last_action reduce_only_language
       (ts_stack_top_state ([[]] : ReferenceStack) 0%nat) (symbol (leaf 5)))
    = TSParseActionTypeReduce.
Proof. split; reflexivity. Qed.

(** A fragile token of symbol 5 lexed in lex state 3. *)
Lemma lex_fragile_witness :
  fst lexed_fragile = Some (set_lex_state (wide 5 1) 3) /\
  lex_state (wide 5 1) = TS_TREE_STATE_INDEPENDENT /\
  lex_state (set_lex_state (wide 5 1) 3) = 3 /\
  (forall (l : TSLanguage) (top_state : TSStateId),
     lex_state_allows l top_state (set_lex_state (wide 5 1) 3) = true <->
     ts_language_lex_state l top_state = 3) /\
  (forall (other : ReferenceParser) (version : StackVersion),
     ts_parser__can_reuse other version (set_lex_state (wide 5 1) 3) = true ->
     ts_language_lex_state (language other)
       (ts_stack_top_state (stack other) version) = 3).
Proof.
  split; [reflexivity | split; [reflexivity |]].
  assert (Hlex : ts_parser__lex lexing_parser 3 false =
                 (Some (set_lex_state (wide 5 1) 3), snd lexed_fragile))
    by reflexivity.
  assert (Hfragile : lr_is_fragile
                       (fst (ts_lexer_run (lexer lexing_parser) 3 false))
                     = true) by reflexivity.
  destruct (lex_fragile_keeps_lex_state lexing_parser (snd lexed_fragile) 3
              false (set_lex_state (wide 5 1) 3) Hlex Hfragile)
    as [Hstate Hreuse].
  split; [exact Hstate |]. apply Hreuse. discriminate.
Defined.

(** *** Reduction *)

(** Lines 417-424 for a reduction that is not fragile, on a stack of one
    version, in a parser whose [is_split] flag is set: the node gets the
    error parse state, not the top state 7. *)
Example reduce_mark_parent_when_split :
  let marked := reduce_mark_parent false true 1 7 (leaf 2) in
  parse_state marked = TS_TREE_STATE_ERROR /\
  parse_state marked <> 7 /\
  fragile_left marked = true /\ fragile_right marked = true.
Proof. cbn. repeat split. discriminate. Qed.


(** *** Error repair *)

(** C2 as the spec states it fails: the candidate (symbol 7, one tree
    below the error, none above) is valid and is recorded, while the
    state reached, state 1, has for the lookahead only a reduce action
    of symbol 7 from three children, none from one child. *)
Lemma valid_repair_ignores_child_count :
  let session :=
    mkSession repair_language [mkReduceAction 7 1] 6 [] false
              (mkReduceAction 0 0) 0 0 in
  let original_child_count :=
    (1 + ts_tree_array_essential_count (trees_above_error session))%nat in
  ts_parser__is_valid_repair repair_language [leaf 5] [] 0 7 1 6 = true /\
  found_repair (callback_at session (mkFrame 0 [leaf 5] 1 false false)) = true /\
  best_repair (callback_at session (mkFrame 0 [leaf 5] 1 false false))
    = mkReduceAction 7 1 /\
  shift_trees_above repair_language 0 [leaf 5] = Some 1 /\
  existsb (is_reduce_of 7 original_child_count)
          (ts_language_actions repair_language 1 6) = false.
Proof. cbn. repeat split. Qed.


(** Two candidates that skip one tree each, at different frames: the
    one found first stays. *)
Example repair_search_tie :
  let l := mkLanguage 9 (fun _ => 0)
             (table [ (0, 5, [shift_to 1]); (1, 5, [shift_to 4]);
                      (1, 6, [reduce_to 7 3]);
                      (0, 7, [shift_to 2]); (2, 6, [shift_to 9]) ])
             (fun _ => no_metadata) in
  let session :=
    mkSession l [mkReduceAction 7 1; mkReduceAction 8 2] 6 [] false
              (mkReduceAction 0 0) 0 0 in
  let final :=
    repair_search [mkFrame 0 [leaf 5; leaf 5] 2 false false;
                   mkFrame 0 [leaf 5; leaf 5; leaf 5] 3 false false]
                  session in
  best_repair final = mkReduceAction 7 1 /\
  best_repair_skip_count final = 1%nat /\
  session_repairs final = [].
Proof. cbn. repeat split. Qed.

(** *** The main loop *)



(** *** The error handler *)

(** C8 as the spec states it fails: state 5 has a shift action, of
    symbol 1, which is extra; the error handler does not count it, and
    with the one reduction that succeeds it renumbers the reduced
    version onto version 0: the stack ends with the reduced node under
    the marker, not with the leaf that version 0 held. *)
Lemma handle_error_renumbers_despite_extra_shift :
  In shift_extra (ts_language_actions error_language 5 1) /\
  action_type shift_extra = TSParseActionTypeShift /\
  has_shift_or_recover error_language 5 = false /\
  ts_parser__handle_error 1 error_parser 0%nat 5 (leaf 3) = Ret (Some handled) /\
  stack error_parser = [[mkEntry (Some (leaf 2)) false 5]] /\
  stack handled =
    [[mkEntry None false ts_parse_state_error;
      mkEntry (Some reduced_leaf) false 9]].
Proof. repeat split. left. reflexivity. Qed.

(** With a shift that is not extra in state 5 the reduced version is
    not renumbered: it gets the marker and is merged into version 0,
    which keeps its leaf under the marker.  One version on entry and on
    return, in the error state. *)
Lemma handle_error_witness :
  ts_parser__handle_error 1 shifting_parser 0%nat 5 (leaf 3)
    = Ret (Some merged) /\
  has_shift_or_recover shifting_language 5 = true /\
  ts_stack_version_count (stack shifting_parser) = 1%nat /\
  ts_stack_version_count (stack merged) = 1%nat /\
  ts_stack_top_state (stack merged) 0%nat = ts_parse_state_error /\
  stack merged =
    [[mkEntry None false ts_parse_state_error;
      mkEntry (Some (leaf 2)) false 5]] /\
  exists marked,
    ts_stack_version_count marked = 2%nat /\
    markers_merged 0%nat 1 marked (stack merged).
Proof.
  assert (Hrun : ts_parser__handle_error 1 shifting_parser 0%nat 5 (leaf 3)
                 = Ret (Some merged)) by reflexivity.
  assert (Hversion : (0 < ts_stack_version_count (stack shifting_parser))%nat)
    by (cbn; lia).
  split; [exact Hrun | split; [reflexivity | split; [reflexivity |]]].
  destruct (handle_error_merges_into_error_version reference_stack_laws 1
              shifting_parser merged 0%nat 5 (leaf 3) Hversion Hrun)
    as (reduced & did_reduce & marked & Hreduce & Hmark & Hmerged & Hcount
        & Htop).
  split; [exact Hcount | split; [exact Htop | split; [reflexivity |]]].
  exists marked. split; [| exact Hmerged].
  vm_compute in Hreduce. inversion Hreduce; subst reduced did_reduce.
  vm_compute in Hmark. inversion Hmark. reflexivity.
Defined.

(** The loop of lines 739-743 needs one round there: without fuel the
    model stops short. *)
Example handle_error_needs_a_round :
  ts_parser__handle_error 0 shifting_parser 0%nat 5 (leaf 3) = OutOfFuel.
Proof. reflexivity. Qed.

(** *** Accepting *)

(** C3 on [accepted_trees].  The root is the last tree, its one child
    takes its place, and the root gets the two trees as children.  The
    one tree before the root is not extra and has 5 characters; the
    loop of lines 659-661 adds the size of [children[j]], the root's
    former child of 1 character, and leaves the error size at 1. *)
Lemma accept_adds_size_of_child_at_root_index :
  find_root accepted_trees (length accepted_trees) = Some 1%nat /\
  accept_root accepted_trees = Ret (Some accepted_root) /\
  children accepted_root = [wide 3 5; leaf 6] /\
  error_size (ts_tree_set_children small_root [wide 3 5; leaf 6]) = 0 /\
  essential_chars_before accepted_trees 1 = 5 /\
  error_size accepted_root = 1.
Proof. repeat split. Qed.

(** When the root has no children and is the last tree of the slice,
    [children[j]] is read past the end of the array. *)
Lemma accept_reads_past_the_children :
  accept_root [wide 3 5; leaf 4] = Undefined.
Proof. reflexivity. Qed.


End Examples.
